(** * The HTM pixelization of sphgeom: index codec, mesh geometry, forward
      locator, reverse resolver and the subdivision step of the rasterizer.

    The development embeds [src/src/HtmPixelization.cc].  Identifiers are
    64-bit unsigned integers, modelled as [Z] with the wrap-around written
    out; [int] values stay far inside their range and are plain [Z].  The
    code is written against an arithmetic of doubles; that arithmetic is an
    interface here ([Numerics], [Geometry]).  The arithmetic of the code is
    IEEE binary64 (the kernel's primitive floats, [ieee]).  What does not
    depend on the arithmetic is proved for every instance of the interface; a
    second instance over the real numbers ([exact]) only serves to
    instantiate such theorems at concrete inputs. *)

From Stdlib Require Import ZArith Lia List Ascii String Bool Floats Reals.
From stdpp Require Import list.
Import ListNotations.
Local Open Scope Z_scope.

(** ** Machine integers *)

Module uint64.
Definition width : Z := 64.
Definition wrap (a : Z) : Z := a mod 2 ^ width.
Definition add (a b : Z) : Z := wrap (a + b).
Definition mul (a b : Z) : Z := wrap (a * b).
Definition shl (a n : Z) : Z := wrap (Z.shiftl a n).
Definition shr (a n : Z) : Z := Z.shiftr a n.
Definition in_range (a : Z) : Prop := 0 <= a < 2 ^ width.
End uint64.

(** ** Exceptions: the only one the file throws is [std::invalid_argument]. *)

Inductive except (A : Type) : Type :=
| ok (a : A)
| invalid_argument (what : string).
Arguments ok {A} a.
Arguments invalid_argument {A} what.

Definition throws {A : Type} (r : except A) : bool :=
match r with
| ok _ => false
| invalid_argument _ => true
end.

(** ** Loops

  [while fuel cond body s] runs [body] as long as [cond] holds.  Every loop
  of the file has an obvious bound on its number of iterations, which is
  what the callers pass as [fuel]; [loops_exit] below shows that the loops
  leave through their condition. *)

Fixpoint while {St : Type} (fuel : nat) (cond : St -> bool) (body : St -> St)
(s : St) : St :=
match fuel with
| O => s
| S fuel' => if cond s then while fuel' cond body (body s) else s
end.

(** ** Arithmetic of the coordinates *)

Module Vector3d.
Record t (D : Type) : Type := make { x : D; y : D; z : D }.
Arguments make {D} x y z.
Arguments x {D} _.
Arguments y {D} _.
Arguments z {D} _.
End Vector3d.

(** Doubles, as far as the file uses them: the three literals of the root
  table, the four comparisons of [index], and the sum behind
  [operator+] on vectors. *)
Class Numerics : Type := {
double : Type;
d_zero : double;
d_one : double;
d_minus_one : double;
d_lt : double -> double -> bool;
d_gt : double -> double -> bool;
d_ge : double -> double -> bool;
d_eq : double -> double -> bool;
d_add : double -> double -> double
}.

Definition UnitVector3d `{Numerics} : Type := Vector3d.t double.

(** The two helpers of the library that the file calls and that live in
  other translation units: the normalizing constructor
  [UnitVector3d(Vector3d const &)] and [orientation]. *)
Class Geometry (num : Numerics) : Type := {
normalized : Vector3d.t double -> UnitVector3d;
orientation : UnitVector3d -> UnitVector3d -> UnitVector3d -> Z
}.

(** A trixel is the array [UnitVector3d[3]]. *)
Module Trixel.
Record t `{Numerics} : Type := make { v0 : UnitVector3d; v1 : UnitVector3d; v2 : UnitVector3d }.
Definition get `{Numerics} (a : t) (k : Z) : UnitVector3d :=
  if k =? 0 then v0 a else if k =? 1 then v1 a else v2 a.
Definition set `{Numerics} (a : t) (k : Z) (u : UnitVector3d) : t :=
  if k =? 0 then make _ u (v1 a) (v2 a)
  else if k =? 1 then make _ (v0 a) u (v2 a)
  else make _ (v0 a) (v1 a) u.
End Trixel.

Section Mesh.
Context {num : Numerics} {geo : Geometry num}.

(** [operator+] of [Vector3d]. *)
Definition vadd (a b : Vector3d.t double) : Vector3d.t double :=
  Vector3d.make (d_add (Vector3d.x a) (Vector3d.x b))
                (d_add (Vector3d.y a) (Vector3d.y b))
                (d_add (Vector3d.z a) (Vector3d.z b)).

Definition fromNormalized (x y z : double) : UnitVector3d :=
  Vector3d.make x y z.

(** Raw HTM root vertex coordinates, [HTM_ROOT_VERTEX[8][3][3]]. *)
Definition HTM_ROOT_VERTEX : list (list (list double)) :=
  let o := d_one in let z := d_zero in let m := d_minus_one in
  [ [[o; z; z]; [z; z; m]; [z; o; z]];
    [[z; o; z]; [z; z; m]; [m; z; z]];
    [[m; z; z]; [z; z; m]; [z; m; z]];
    [[z; m; z]; [z; z; m]; [o; z; z]];
    [[o; z; z]; [z; z; o]; [z; m; z]];
    [[z; m; z]; [z; z; o]; [m; z; z]];
    [[m; z; z]; [z; z; o]; [z; o; z]];
    [[z; o; z]; [z; z; o]; [o; z; z]] ].

Definition root_coordinate (r v c : Z) : double :=
  nth (Z.to_nat c) (nth (Z.to_nat v) (nth (Z.to_nat r) HTM_ROOT_VERTEX []) []) d_zero.

Definition root_vertex (r v : Z) : UnitVector3d :=
  fromNormalized (root_coordinate r v 0) (root_coordinate r v 1)
                 (root_coordinate r v 2).

Definition root_trixel (r : Z) : Trixel.t :=
  Trixel.make _ (root_vertex r 0) (root_vertex r 1) (root_vertex r 2).
End Mesh.

(** ** The rasterizer's subdivision step

    [HtmPixelFinder] derives from [detail::PixelFinder], whose [visit] is
    defined in a header outside this file; [subdivide] calls it four times.
    The finder's state and [visit] are parameters: [subdivide] threads the
    state through its four calls in program order. *)

Module HtmPixelFinder.
Section Finder.
Context {num : Numerics} {geo : Geometry num}.
Variable Finder : Type.
Variable visit : Trixel.t -> Z -> Z -> Finder -> Finder.

Definition subdivide (trixel : Trixel.t) (index : Z) (level : Z)
  (self : Finder) : Finder :=
  let mid :=
    Trixel.make _
      (normalized (vadd (Trixel.get trixel 1) (Trixel.get trixel 2)))
      (normalized (vadd (Trixel.get trixel 2) (Trixel.get trixel 0)))
      (normalized (vadd (Trixel.get trixel 0) (Trixel.get trixel 1))) in
  let child :=
    Trixel.make _ (Trixel.get trixel 0) (Trixel.get mid 2) (Trixel.get mid 1) in
  let index := uint64.mul index 4 in
  let level := level + 1 in
  let self := visit child index level self in
  let child := Trixel.set child 0 (Trixel.get trixel 1) in
  let child := Trixel.set child 1 (Trixel.get mid 0) in
  let child := Trixel.set child 2 (Trixel.get mid 2) in
  let index := uint64.add index 1 in
  let self := visit child index level self in
  let child := Trixel.set child 0 (Trixel.get trixel 2) in
  let child := Trixel.set child 1 (Trixel.get mid 1) in
  let child := Trixel.set child 2 (Trixel.get mid 0) in
  let index := uint64.add index 1 in
  let self := visit child index level self in
  let index := uint64.add index 1 in
  visit mid index level self.

(** The inner loop of [operator()]: [trixel[v]] is set to vertex [v] of the
    root [r]; the state is [(v, trixel)]. *)
Definition call_vertices (r : Z) (trixel : Trixel.t) : Trixel.t :=
  snd (while 3 (fun st : Z * Trixel.t => fst st <? 3)
         (fun st : Z * Trixel.t =>
            let '(v, trixel) := st in
            (v + 1,
             Trixel.set trixel v
               (fromNormalized (root_coordinate r v 0) (root_coordinate r v 1)
                  (root_coordinate r v 2))))
         (0, trixel)).

(** One iteration of the loop of [operator()] over the root triangles; the
    state is [(r, trixel, self)]. *)
Definition call_body (st : Z * Trixel.t * Finder) : Z * Trixel.t * Finder :=
  let '(r, trixel, self) := st in
  let trixel := call_vertices r trixel in
  let self := visit trixel (uint64.add r 8) 0 self in
  (uint64.add r 1, trixel, self).

(** [operator()], on the array [trixel] as its declaration leaves it. *)
Definition call (trixel : Trixel.t) (self : Finder) : Finder :=
  snd (while 8 (fun st : Z * Trixel.t * Finder => fst (fst st) <? 8)
         call_body (0, trixel, self)).
End Finder.
End HtmPixelFinder.

(** ** The pixelization *)

Module HtmPixelization.

(** Modelled from the spec: [log2] is declared in [curve.h], which is not
    among the sources.  The spec describes it as the bit position of the
    most-significant set bit of its argument; for 0, which has no set
    bit, the result is taken to be 0, an even position, in line with the
    spec's demand that the identifier 0 be rejected. *)
Definition log2 (x : Z) : Z := Z.log2 x.

Definition level (i : Z) : Z :=
  let j := log2 i in
  if (Z.land j 1 =? 0) || (j =? 1) then -1 else Z.shiftr (j - 3) 1.

(** ['0' + (i & 3)], stored into a [char]. *)
Definition digit_char (d : Z) : ascii :=
  ascii_of_N (N_of_ascii "0" + Z.to_N d).

Section Pixelization.
(** [MAX_LEVEL] is a constant of [HtmPixelization.h], which is not among the
    sources: it is a parameter. *)
Variable MAX_LEVEL : Z.
Context {num : Numerics} {geo : Geometry num}.

Definition ConvexPolygon : Type := Trixel.t.

(** One iteration of the loop of [triangle]; the state is [(l, v0, v1, v2)]. *)
Definition triangle_body (i : Z) (st : Z * Trixel.t) : Z * Trixel.t :=
  let '(l, Trixel.make _ v0 v1 v2) := st in
  let child := Z.land (uint64.shr i l) 3 in
  let m12 := normalized (vadd v1 v2) in
  let m20 := normalized (vadd v2 v0) in
  let m01 := normalized (vadd v0 v1) in
  let t :=
    if child =? 0 then Trixel.make _ v0 m01 m20
    else if child =? 1 then Trixel.make _ v1 m12 m01
    else if child =? 2 then Trixel.make _ v2 m20 m12
    else if child =? 3 then Trixel.make _ m12 m20 m01
    else Trixel.make _ v0 v1 v2 in
  (l - 2, t).

Definition triangle (i : Z) : except ConvexPolygon :=
  let l := level i in
  if (l <? 0) || (l >? MAX_LEVEL) then invalid_argument "Invalid HTM index"
  else
    let l := l * 2 in
    let r := Z.land (uint64.shr i l) 7 in
    let t := root_trixel r in
    let '(_, t) :=
      while (Z.to_nat l) (fun st => fst st >=? 0) (triangle_body i) (l - 2, t) in
    ok t.

(** One iteration of the loop of [toString]; the state is [(l, p, i, s)],
    with [p] the offset of the write pointer into the buffer [s]. *)
Definition toString_body (st : Z * Z * Z * list ascii) : Z * Z * Z * list ascii :=
  let '(l, p, i, s) := st in
  let s := <[Z.to_nat p := digit_char (Z.land i 3)]> s in
  (l - 1, p - 1, uint64.shr i 2, s).

(** [toString] run on a buffer [s] with arbitrary initial contents. *)
Definition toString_on (s : list ascii) (i : Z) : except string :=
  let sizeof_s := MAX_LEVEL + 2 in
  let l := level i in
  if (l <? 0) || (l >? MAX_LEVEL) then invalid_argument "Invalid HTM index"
  else
    let p := sizeof_s - 1 in
    let '(_, p, i, s) :=
      while (Z.to_nat (l + 1)) (fun st => fst (fst (fst st)) >=? 0)
            toString_body (l, p, i, s) in
    let s := <[Z.to_nat p := if Z.land i 1 =? 0 then "S"%char else "N"%char]> s in
    ok (string_of_list_ascii
          (take (Z.to_nat (sizeof_s - p)) (drop (Z.to_nat p) s))).

Definition toString (i : Z) : except string :=
  toString_on (replicate (Z.to_nat (MAX_LEVEL + 2)) Ascii.zero) i.

Record t : Type := Build { _level : Z }.

(** The constructor [HtmPixelization(int level)]. *)
Definition new (level : Z) : except t :=
  if (level <? 0) || (level >? MAX_LEVEL)
  then invalid_argument "Invalid HTM subdivision level"
  else ok (Build level).

(** Root selection of [index]: the root triangle containing [v]. *)
Definition index_root (v : UnitVector3d) : Z :=
  if d_lt (Vector3d.z v) d_zero then
    if d_gt (Vector3d.y v) d_zero then
      (if d_gt (Vector3d.x v) d_zero then 0 else 1)
    else if d_eq (Vector3d.y v) d_zero then
      (if d_ge (Vector3d.x v) d_zero then 0 else 2)
    else
      (if d_lt (Vector3d.x v) d_zero then 2 else 3)
  else
    if d_gt (Vector3d.y v) d_zero then
      (if d_gt (Vector3d.x v) d_zero then 7 else 6)
    else if d_eq (Vector3d.y v) d_zero then
      (if d_ge (Vector3d.x v) d_zero then 7 else 5)
    else
      (if d_lt (Vector3d.x v) d_zero then 5 else 4).

(** One iteration of the loop of [index]; the state is [(l, i, v0, v1, v2)]. *)
Definition index_body (v : UnitVector3d) (st : Z * Z * Trixel.t) : Z * Z * Trixel.t :=
  let '(l, i, Trixel.make _ v0 v1 v2) := st in
  let m01 := normalized (vadd v0 v1) in
  let m20 := normalized (vadd v2 v0) in
  let i := uint64.shl i 2 in
  if orientation v m01 m20 >=? 0 then
    (l + 1, i, Trixel.make _ v0 m01 m20)
  else
    let m12 := normalized (vadd v1 v2) in
    if orientation v m12 m01 >=? 0 then
      (l + 1, uint64.add i 1, Trixel.make _ v1 m12 m01)
    else if orientation v m20 m12 >=? 0 then
      (l + 1, uint64.add i 2, Trixel.make _ v2 m20 m12)
    else
      (l + 1, uint64.add i 3, Trixel.make _ m12 m20 m01).

(** The loop of [index], with the trixel it ends in. *)
Definition index_descent (self : t) (v : UnitVector3d) : Z * Z * Trixel.t :=
  let r := index_root v in
  let i := uint64.add r 8 in
  while (Z.to_nat (_level self)) (fun st => fst (fst st) <? _level self)
        (index_body v) (0, i, root_trixel r).

Definition index (self : t) (v : UnitVector3d) : Z :=
  snd (fst (index_descent self v)).
End Pixelization.
End HtmPixelization.

(** ** What the rasterizer's subdivision visits

    A finder that only records its visits, in order: the trixel, the index
    and the level of each call of [visit]. *)

Module Trace.
Section Trace.
Context {num : Numerics} {geo : Geometry num}.

Definition node : Type := Trixel.t * Z * Z.

Definition visit (trixel : Trixel.t) (index level : Z) (log : list node) : list node :=
  log ++ [(trixel, index, level)].

(** The four visits of one call of [subdivide]. *)
Definition children (n : node) : list node :=
  let '(trixel, index, level) := n in
  HtmPixelFinder.subdivide (list node) visit trixel index level [].

(** Modelled from the spec: the traversal that calls [subdivide] is
    [detail::PixelFinder::visit], which is not among the sources.  The
    descendants of a node [depth] levels further down are, in the spec's
    words, what subdividing the node and recursing into each of the four
    children reaches. *)
Fixpoint descendants (depth : nat) (n : node) : list node :=
  match depth with
  | O => [n]
  | S depth' => flat_map (descendants depth') (children n)
  end.

Definition index_of (n : node) : Z := snd (fst n).

(** The visits of [operator()]. *)
Definition roots (trixel : Trixel.t) : list node :=
  HtmPixelFinder.call (list node) visit trixel [].

(** The nodes [depth] levels below the roots, in the order the traversal
    reaches them. *)
Definition traverse (depth : nat) (trixel : Trixel.t) : list node :=
  flat_map (descendants depth) (roots trixel).
End Trace.
End Trace.


(** ** The arithmetic of the machine: IEEE binary64 *)

Module ieee.
Definition numerics : Numerics :=
  {| double := float;
     d_zero := 0%float;
     d_one := 1%float;
     d_minus_one := (-1)%float;
     d_lt := PrimFloat.ltb;
     d_gt := fun a b => PrimFloat.ltb b a;
     d_ge := fun a b => PrimFloat.leb b a;
     d_eq := PrimFloat.eqb;
     d_add := PrimFloat.add |}.

Definition point (x y z : float) : UnitVector3d (H := numerics) :=
  Vector3d.make x y z.

(** The root a double-precision point is assigned to. *)
Definition index_root (x y z : float) : Z :=
  HtmPixelization.index_root (point x y z).
End ieee.

(** ** A second instance of the interface: real numbers

    This is not the arithmetic of the code, and nothing is proved of this
    instance alone.  It has both helpers defined, which the theorems that
    hold for every instance need when they are instantiated. *)

Module exact.
Definition ltb (a b : R) : bool := if Rlt_dec a b then true else false.
Definition leb (a b : R) : bool := if Rle_dec a b then true else false.
Definition eqb (a b : R) : bool := if Req_dec_T a b then true else false.

Definition numerics : Numerics :=
  {| double := R;
     d_zero := 0%R;
     d_one := 1%R;
     d_minus_one := (-1)%R;
     d_lt := ltb;
     d_gt := fun a b => ltb b a;
     d_ge := fun a b => leb b a;
     d_eq := eqb;
     d_add := Rplus |}.

Definition dot (a b : Vector3d.t R) : R :=
  (Vector3d.x a * Vector3d.x b + Vector3d.y a * Vector3d.y b
   + Vector3d.z a * Vector3d.z b)%R.

Definition cross (a b : Vector3d.t R) : Vector3d.t R :=
  Vector3d.make
    (Vector3d.y a * Vector3d.z b - Vector3d.z a * Vector3d.y b)%R
    (Vector3d.z a * Vector3d.x b - Vector3d.x a * Vector3d.z b)%R
    (Vector3d.x a * Vector3d.y b - Vector3d.y a * Vector3d.x b)%R.

Definition scale (k : R) (a : Vector3d.t R) : Vector3d.t R :=
  Vector3d.make (k * Vector3d.x a)%R (k * Vector3d.y a)%R (k * Vector3d.z a)%R.

Definition sign (t : R) : Z :=
  if Rlt_dec 0 t then 1 else if Rlt_dec t 0 then -1 else 0.

(** The triple product [v . (a x b)]. *)
Definition triple (v a b : Vector3d.t R) : R := dot v (cross a b).

(** The two helpers on real vectors: the normalizing constructor divides
    by the length, and [orientation] is the sign of the triple product. *)
Definition geometry : Geometry numerics :=
  Build_Geometry numerics
    (fun v : Vector3d.t R => scale (/ sqrt (dot v v)) v)
    (fun a b c : Vector3d.t R => sign (triple a b c)).
End exact.

Definition exact_root (r : Z) : Trixel.t := root_trixel (num := exact.numerics) r.

(** ** Vocabulary of the specification *)

(** [j] is the position of the most-significant set bit of [i]. *)
Definition is_msb (i j : Z) : Prop :=
  0 <= j /\ Z.testbit i j = true /\ forall k, j < k -> Z.testbit i k = false.

(** An identifier is valid when its level is in [[0, MAX_LEVEL]]. *)
Definition valid (MAX_LEVEL i : Z) : Prop :=
  0 <= HtmPixelization.level i <= MAX_LEVEL.

(** The 3-bit root field of an identifier, as [triangle] extracts it. *)
Definition root_field (i : Z) : Z :=
  Z.land (uint64.shr i (HtmPixelization.level i * 2)) 7.

Definition is_base4_digit (c : ascii) : Prop :=
  c = "0"%char \/ c = "1"%char \/ c = "2"%char \/ c = "3"%char.

(** The [n] least-significant base-4 digits of [i], most significant first. *)
Fixpoint base4_digits (n : nat) (i : Z) : list ascii :=
  match n with
  | O => []
  | S n' => base4_digits n' (Z.shiftr i 2) ++ [HtmPixelization.digit_char (Z.land i 3)]
  end.

(** The hemisphere letter in front of the digits. *)
Definition hemisphere_char (i : Z) : ascii :=
  if 4 <=? root_field i then "N"%char else "S"%char.

(** The child layout in the specification's words: with the midpoints
    [m01], [m12] and [m20] of the edges of [(v0, v1, v2)], child 0 is
    [(v0, m01, m20)], child 1 is [(v1, m12, m01)], child 2 is
    [(v2, m20, m12)] and child 3 is [(m12, m20, m01)]. *)
Definition spec_child {num : Numerics} {geo : Geometry num}
  (c : Z) (t : Trixel.t) : Trixel.t :=
  let v0 := Trixel.v0 t in
  let v1 := Trixel.v1 t in
  let v2 := Trixel.v2 t in
  let m01 := normalized (vadd v0 v1) in
  let m12 := normalized (vadd v1 v2) in
  let m20 := normalized (vadd v2 v0) in
  match c with
  | 0 => Trixel.make _ v0 m01 m20
  | 1 => Trixel.make _ v1 m12 m01
  | 2 => Trixel.make _ v2 m20 m12
  | _ => Trixel.make _ m12 m20 m01
  end.

(** The identifier of child [c] of the node [i]: two more bits at the low
    end. *)
Definition spec_child_index (i c : Z) : Z := uint64.add (uint64.shl i 2) c.

(** The identifiers of level [MAX_LEVEL] take [2 * MAX_LEVEL + 4] bits; they
    fit in 64. *)
Definition fits (MAX_LEVEL : Z) : Prop := 2 * MAX_LEVEL + 4 <= uint64.width.

(** The half-open range the specification gives for the descendants of the
    node [i] that lie [d] levels below it. *)
Definition in_descendant_range (i d x : Z) : Prop :=
  Z.shiftl i (2 * d) <= x < Z.shiftl (i + 1) (2 * d).

(** A path from a node down the mesh: the child codes, shallowest first.
    [path_index] appends them to an identifier the way the code does,
    [path_value] is the same number without the wrap-around, and
    [path_trixel] follows them through the child layout. *)
Definition is_code (c : Z) : Prop := 0 <= c <= 3.

Definition path_index (i : Z) (cs : list Z) : Z := fold_left spec_child_index cs i.

Definition path_value (i : Z) (cs : list Z) : Z :=
  fold_left (fun j c => 4 * j + c) cs i.

Definition path_trixel {num : Numerics} {geo : Geometry num}
  (t : Trixel.t) (cs : list Z) : Trixel.t :=
  fold_left (fun t c => spec_child c t) cs t.

(** The smallest positive double, [2^-1074]. *)
Definition smallest_positive : float := 0x1p-1074%float.

(** A node of the traversal is consistent when its level is the level of
    its identifier and its trixel is the one [triangle] returns for its
    identifier. *)
Definition node_consistent {num : Numerics} {geo : Geometry num}
  (MAX_LEVEL : Z) (n : Trace.node) : Prop :=
  HtmPixelization.level (Trace.index_of n) = snd n
  /\ HtmPixelization.triangle MAX_LEVEL (Trace.index_of n) = ok (fst (fst n)).

(** Coordinate [c] of a vector, as the root table indexes them. *)
Definition coordinate {D : Type} (c : Z) (v : Vector3d.t D) : D :=
  if c =? 0 then Vector3d.x v else if c =? 1 then Vector3d.y v else Vector3d.z v.

(** * Properties *)

(** ** The definitions at work *)

Example level_examples :
  map HtmPixelization.level [0; 1; 7; 8; 15; 16; 31; 32; 63; 64; 2 ^ 64 - 1]
  = [-1; -1; -1; 0; 0; -1; -1; 1; 1; -1; 30].
Proof. reflexivity. Qed.

Example toString_examples :
  map (HtmPixelization.toString 24) [8; 9; 12; 15; 35; 63]
  = [ok "S0"; ok "S1"; ok "N0"; ok "N3"; ok "S03"; ok "N33"]%string.
Proof. vm_compute. reflexivity. Qed.

Example toString_rejects :
  map (fun i => throws (HtmPixelization.toString 24 i)) [0; 7; 16; 31; 8 * 4 ^ 25]
  = [true; true; true; true; true].
Proof. vm_compute. reflexivity. Qed.

Example index_root_examples :
  [ieee.index_root 1 1 (-1); ieee.index_root (-1) 1 (-1);
   ieee.index_root (-1) (-1) (-1); ieee.index_root 1 (-1) (-1);
   ieee.index_root 1 (-1) 1; ieee.index_root (-1) (-1) 1;
   ieee.index_root (-1) 1 1; ieee.index_root 1 1 1]
  = [0; 1; 2; 3; 4; 5; 6; 7].
Proof. vm_compute. reflexivity. Qed.

Example children_examples :
  map (fun c : Trace.node => (Trace.index_of c, snd c))
      (Trace.children (geo := exact.geometry) (exact_root 0, 8, 0))
  = [(32, 1); (33, 1); (34, 1); (35, 1)].
Proof. reflexivity. Qed.

(** ** Loops leave through their condition *)

Lemma while_done {St : Type} (cond : St -> bool) (body : St -> St) fuel s :
  cond s = false -> while fuel cond body s = s.
Proof. destruct fuel; simpl; intros E; [reflexivity | now rewrite E]. Qed.

Lemma while_step {St : Type} (cond : St -> bool) (body : St -> St) fuel s :
  cond s = true ->
  while (S fuel) cond body s = while fuel cond body (body s).
Proof. simpl; intros E; now rewrite E. Qed.

Lemma while_exits {St : Type} (cond : St -> bool) (body : St -> St)
  (measure : St -> nat) :
  (forall s, cond s = true -> (measure (body s) < measure s)%nat) ->
  forall fuel s, (measure s <= fuel)%nat ->
  cond (while fuel cond body s) = false.
Proof.
  intros Hdec fuel; induction fuel as [|fuel IH]; intros s Hm; simpl.
  - destruct (cond s) eqn:E; [|reflexivity].
    specialize (Hdec s E); lia.
  - destruct (cond s) eqn:E; [|exact E].
    apply IH. specialize (Hdec s E); lia.
Qed.

(** The three loops of the file, run with the fuel their callers pass, end
    in a state that fails the loop condition: none is cut short. *)
Lemma loops_exit {num : Numerics} {geo : Geometry num} :
  (forall (i l : Z) (t : Trixel.t),
      (fst (while (Z.to_nat l) (fun st : Z * Trixel.t => fst st >=? 0)
              (HtmPixelization.triangle_body i) (l - 2, t)) >=? 0) = false)
  /\ (forall (l p i : Z) (s : list ascii),
        (fst (fst (fst (while (Z.to_nat (l + 1))
                          (fun st : Z * Z * Z * list ascii => fst (fst (fst st)) >=? 0)
                          HtmPixelization.toString_body (l, p, i, s)))) >=? 0) = false)
  /\ (forall (v : UnitVector3d) (L i : Z) (t : Trixel.t),
        (fst (fst (while (Z.to_nat L) (fun st : Z * Z * Trixel.t => fst (fst st) <? L)
                     (HtmPixelization.index_body v) (0, i, t))) <? L) = false).
Proof.
  split; [|split].
  - intros i l t.
    apply (while_exits (fun st : Z * Trixel.t => fst st >=? 0)
             (HtmPixelization.triangle_body i)
             (fun st => Z.to_nat (fst st + 2))).
    + intros [l' [a b c]] Hc. cbn [fst] in Hc. apply Z.geb_le in Hc.
      unfold HtmPixelization.triangle_body. cbn [fst]. lia.
    + cbn [fst]. lia.
  - intros l p i s.
    apply (while_exits (fun st : Z * Z * Z * list ascii => fst (fst (fst st)) >=? 0)
             HtmPixelization.toString_body
             (fun st => Z.to_nat (fst (fst (fst st)) + 1))).
    + intros [[[l' p'] i'] s'] Hc. cbn [fst] in Hc. apply Z.geb_le in Hc.
      unfold HtmPixelization.toString_body. cbn [fst]. lia.
    + cbn [fst]. lia.
  - intros v L i t.
    apply (while_exits (fun st : Z * Z * Trixel.t => fst (fst st) <? L)
             (HtmPixelization.index_body v)
             (fun st => Z.to_nat (L - fst (fst st)))).
    + intros [[l' i'] [a b c]] Hc. cbn [fst] in Hc. apply Z.ltb_lt in Hc.
      unfold HtmPixelization.index_body.
      repeat match goal with |- context [if ?b then _ else _] => destruct b end;
        cbn [fst]; lia.
    + cbn [fst]. lia.
Qed.

(** ** The index codec *)

Lemma pow4_pow2 (n : Z) : 0 <= n -> 4 ^ n = 2 ^ (2 * n).
Proof. intros Hn. rewrite Z.pow_mul_r by lia. reflexivity. Qed.

Lemma pow4_pos (n : Z) : 0 <= n -> 0 < 4 ^ n.
Proof. intros Hn. apply Z.pow_pos_nonneg; lia. Qed.

Lemma pow4_succ (n : Z) : 0 <= n -> 4 ^ (n + 1) = 4 * 4 ^ n.
Proof. intros Hn. rewrite Z.pow_add_r by lia. lia. Qed.

Lemma land_1_odd (j : Z) : Z.land j 1 = if Z.odd j then 1 else 0.
Proof.
  change 1 with (Z.ones 1) at 1. rewrite Z.land_ones by lia.
  change (2 ^ 1) with 2. rewrite Zmod_odd. reflexivity.
Qed.

Lemma level_of_log2 (i j : Z) :
  HtmPixelization.log2 i = j ->
  HtmPixelization.level i = if Z.odd j && (1 <? j) then (j - 3) / 2 else -1.
Proof.
  intros <-. unfold HtmPixelization.level.
  assert (Hj : 0 <= HtmPixelization.log2 i) by apply Z.log2_nonneg.
  generalize dependent (HtmPixelization.log2 i). intros j Hj. cbv zeta.
  rewrite land_1_odd. rewrite Z.shiftr_div_pow2 by lia. change (2 ^ 1) with 2.
  destruct (Z.odd j) eqn:Ho; simpl.
  - destruct (Z.eqb_spec j 1) as [E|E]; destruct (Z.ltb_spec 1 j); try lia; try reflexivity.
    exfalso. assert (j = 0) by lia. subst j. discriminate.
  - reflexivity.
Qed.

Lemma log2_of_bounds (n i : Z) :
  0 <= n -> 8 * 4 ^ n <= i < 16 * 4 ^ n -> HtmPixelization.log2 i = 2 * n + 3.
Proof.
  intros Hn Hi. unfold HtmPixelization.log2.
  apply Z.log2_unique; [lia|].
  replace (Z.succ (2 * n + 3)) with (2 * n + 4) by lia.
  rewrite !Z.pow_add_r by lia. rewrite <- pow4_pow2 by lia.
  change (2 ^ 3) with 8. change (2 ^ 4) with 16. lia.
Qed.

Lemma level_of_bounds (n i : Z) :
  0 <= n -> 8 * 4 ^ n <= i < 16 * 4 ^ n -> HtmPixelization.level i = n.
Proof.
  intros Hn Hi. rewrite (level_of_log2 i (2 * n + 3)) by now apply log2_of_bounds.
  replace (2 * n + 3) with (1 + 2 * (n + 1)) at 1 by lia.
  rewrite Z.odd_add_mul_2. simpl.
  destruct (Z.ltb_spec 1 (2 * n + 3)); [|lia].
  replace (2 * n + 3 - 3) with (n * 2) by lia. apply Z.div_mul. lia.
Qed.

Lemma level_bounds (i l : Z) :
  0 <= l -> HtmPixelization.level i = l -> 8 * 4 ^ l <= i < 16 * 4 ^ l.
Proof.
  intros Hl E. rewrite (level_of_log2 i _ eq_refl) in E.
  remember (HtmPixelization.log2 i) as j eqn:Dj.
  destruct (Z.odd j) eqn:Ho; simpl in E; [|lia].
  destruct (Z.ltb_spec 1 j) as [Hj|Hj]; [|lia].
  assert (Ej : j = 2 * l + 3).
  { apply Z.odd_spec in Ho. destruct Ho as [m Em].
    replace (j - 3) with ((m - 1) * 2) in E by lia.
    rewrite Z.div_mul in E by lia. lia. }
  assert (Hpos : 0 < i).
  { destruct (Z.lt_ge_cases 0 i) as [?|Hle]; [assumption|].
    unfold HtmPixelization.log2 in Dj. rewrite Z.log2_nonpos in Dj by lia. lia. }
  destruct (Z.log2_spec i Hpos) as [H1 H2].
  unfold HtmPixelization.log2 in Dj. rewrite <- Dj, Ej in H1, H2.
  replace (Z.succ (2 * l + 3)) with (2 * l + 4) in H2 by lia.
  rewrite !Z.pow_add_r in H1, H2 by lia. rewrite <- pow4_pow2 in H1, H2 by lia.
  change (2 ^ 3) with 8 in H1. change (2 ^ 4) with 16 in H2. lia.
Qed.

Lemma is_msb_log2 (i j : Z) : 0 <= i -> is_msb i j -> 0 < i /\ Z.log2 i = j.
Proof.
  intros Hi (Hj & Hbit & Habove).
  assert (Hpos : 0 < i).
  { destruct (Z.eq_dec i 0) as [-> | ]; [|lia]. rewrite Z.bits_0 in Hbit. discriminate. }
  split; [exact Hpos|].
  destruct (Z.lt_trichotomy (Z.log2 i) j) as [Lt|[Eq|Gt]]; [|exact Eq|].
  - rewrite Z.bits_above_log2 in Hbit by lia. discriminate.
  - pose proof (Z.bit_log2 i Hpos) as Hb. rewrite (Habove _ Gt) in Hb. discriminate.
Qed.

Lemma log2_is_msb (i : Z) : 0 < i -> is_msb i (Z.log2 i).
Proof.
  intros Hpos. split; [apply Z.log2_nonneg|]. split.
  - now apply Z.bit_log2.
  - intros k Hk. apply Z.bits_above_log2; lia.
Qed.

(** C4: for a 64-bit identifier whose most-significant set bit is at position
    [j], [level] returns [(j - 3) / 2] when [j] is odd and greater than 1 and
    the sentinel [-1] otherwise; it returns [-1] too for the identifier without
    a set bit. *)
Theorem level_from_msb (i : Z) :
  uint64.in_range i ->
  (forall j, is_msb i j ->
     HtmPixelization.level i = if Z.odd j && (1 <? j) then (j - 3) / 2 else -1)
  /\ ((forall j, ~ is_msb i j) -> HtmPixelization.level i = -1).
Proof.
  intros [Hlo _]. split.
  - intros j Hj. apply level_of_log2.
    destruct (is_msb_log2 i j Hlo Hj) as [_ E]. exact E.
  - intros Hnone.
    destruct (Z.eq_dec i 0) as [-> | Hnz]; [reflexivity|].
    exfalso. apply (Hnone (Z.log2 i)). apply log2_is_msb. lia.
Qed.

Lemma level_from_msb_witness :
  (forall j, is_msb 35 j ->
     HtmPixelization.level 35 = if Z.odd j && (1 <? j) then (j - 3) / 2 else -1)
  /\ ((forall j, ~ is_msb 35 j) -> HtmPixelization.level 35 = -1).
Proof. apply (level_from_msb 35). unfold uint64.in_range, uint64.width. lia. Defined.

(** ** [toString]: the buffer after the loop *)

Lemma toString_loop (n : nat) :
  forall (P : nat) (i : Z) (s : list ascii),
  (n <= P + 1)%nat -> (P < length s)%nat ->
  while n (fun st : Z * Z * Z * list ascii => fst (fst (fst st)) >=? 0)
        HtmPixelization.toString_body (Z.of_nat n - 1, Z.of_nat P, i, s)
  = (-1, Z.of_nat P - Z.of_nat n, Z.shiftr i (2 * Z.of_nat n),
     take (P + 1 - n) s ++ base4_digits n i ++ drop (P + 1) s).
Proof.
  induction n as [|m IH]; intros P i s Hn HP.
  - simpl. rewrite Z.sub_0_r, Z.shiftr_0_r, Nat.sub_0_r, take_drop. reflexivity.
  - rewrite while_step by (cbn beta; cbn [fst]; apply Z.geb_le; lia).
    cbn [HtmPixelization.toString_body]. rewrite Nat2Z.id.
    replace (Z.of_nat (S m) - 1 - 1) with (Z.of_nat m - 1) by lia.
    assert (Hins : <[P:=HtmPixelization.digit_char (Z.land i 3)]> s
                   = take P s ++ HtmPixelization.digit_char (Z.land i 3) :: drop (S P) s)
      by (apply insert_take_drop; lia).
    destruct m as [|m'].
    + simpl while. simpl base4_digits.
      replace (P + 1 - 1)%nat with P by lia.
      replace (P + 1)%nat with (S P) by lia.
      rewrite Hins. reflexivity.
    + destruct P as [|P']; [lia|].
      replace (Z.of_nat (S P') - 1) with (Z.of_nat P') by lia.
      rewrite IH by (rewrite ?length_insert; lia).
      replace (uint64.shr i 2) with (Z.shiftr i 2) by reflexivity.
      rewrite Z.shiftr_shiftr by lia.
      f_equal; [f_equal; [f_equal; lia | f_equal; lia]|].
      rewrite take_insert_ge by lia.
      replace (P' + 1 - S m')%nat with (S P' + 1 - S (S m'))%nat by lia.
      replace (P' + 1)%nat with (S P') by lia.
      rewrite Hins, drop_app_length' by (rewrite length_take; lia).
      cbn [base4_digits]. rewrite <- !app_assoc.
      replace (S P' + 1)%nat with (S (S P')) by lia. reflexivity.
Qed.

Lemma base4_digits_length (n : nat) (i : Z) : length (base4_digits n i) = n.
Proof.
  revert i; induction n as [|n IH]; intros i; simpl; [reflexivity|].
  rewrite length_app, IH. simpl. lia.
Qed.

Lemma land_3_range (i : Z) : 0 <= Z.land i 3 < 4.
Proof.
  change 3 with (Z.ones 2). rewrite Z.land_ones by lia.
  apply Z.mod_pos_bound. reflexivity.
Qed.

Lemma digit_char_base4 (d : Z) :
  0 <= d < 4 -> is_base4_digit (HtmPixelization.digit_char d).
Proof.
  intros Hd. unfold is_base4_digit.
  assert (C : d = 0 \/ d = 1 \/ d = 2 \/ d = 3) by lia.
  destruct C as [-> | [-> | [-> | ->]]]; vm_compute; tauto.
Qed.

Lemma base4_digits_base4 (n : nat) (i : Z) :
  Forall is_base4_digit (base4_digits n i).
Proof.
  revert i; induction n as [|n IH]; intros i; simpl; [constructor|].
  apply Forall_app. split; [apply IH|].
  constructor; [|constructor]. apply digit_char_base4, land_3_range.
Qed.

Lemma drop_insert_take {A : Type} (k : nat) (h : A) (s D : list A) :
  (k < length s)%nat ->
  drop k (<[k:=h]> (take (S k) s ++ D)) = h :: D.
Proof.
  intros Hk.
  assert (Hlen : length (take (S k) s) = S k) by (rewrite length_take; lia).
  rewrite insert_take_drop by (rewrite length_app; lia).
  rewrite drop_app_length' by (rewrite length_take, length_app; lia).
  f_equal. apply drop_app_length'. now rewrite Hlen.
Qed.

Lemma shiftr_valid (i l : Z) :
  0 <= l -> HtmPixelization.level i = l -> 8 <= Z.shiftr i (2 * l) < 16.
Proof.
  intros Hl E. pose proof (level_bounds i l Hl E) as Hi.
  pose proof (pow4_pos l Hl) as Hp.
  rewrite Z.shiftr_div_pow2 by lia. rewrite <- pow4_pow2 by lia. split.
  - apply Z.div_le_lower_bound; lia.
  - apply Z.div_lt_upper_bound; lia.
Qed.

Lemma hemisphere_bit (i : Z) :
  0 <= HtmPixelization.level i ->
  (if Z.land (Z.shiftr i (2 * (HtmPixelization.level i + 1))) 1 =? 0
   then "S"%char else "N"%char) = hemisphere_char i.
Proof.
  intros Hl. unfold hemisphere_char, root_field, uint64.shr.
  pose proof (shiftr_valid i _ Hl eq_refl) as Hq.
  replace (2 * (HtmPixelization.level i + 1)) with (2 * HtmPixelization.level i + 2) by lia.
  rewrite <- Z.shiftr_shiftr by lia.
  replace (HtmPixelization.level i * 2) with (2 * HtmPixelization.level i) by lia.
  generalize dependent (Z.shiftr i (2 * HtmPixelization.level i)). intros q Hq.
  assert (C : q = 8 \/ q = 9 \/ q = 10 \/ q = 11 \/ q = 12 \/ q = 13 \/ q = 14 \/ q = 15) by lia.
  destruct C as [-> | [-> | [-> | [-> | [-> | [-> | [-> | ->]]]]]]]; reflexivity.
Qed.

(** The string [toString] returns for a valid identifier, whatever the
    buffer held before. *)
Lemma toString_on_valid (MAX_LEVEL : Z) (s : list ascii) (i : Z) :
  valid MAX_LEVEL i ->
  length s = Z.to_nat (MAX_LEVEL + 2) ->
  HtmPixelization.toString_on MAX_LEVEL s i
  = ok (string_of_list_ascii
          (hemisphere_char i
             :: base4_digits (Z.to_nat (HtmPixelization.level i + 1)) i)).
Proof.
  intros [Hl0 Hl1] Hs. unfold HtmPixelization.toString_on.
  destruct (Z.ltb_spec (HtmPixelization.level i) 0); [lia|].
  destruct (Z.gtb_spec (HtmPixelization.level i) MAX_LEVEL); [lia|].
  cbn [orb].
  set (l := HtmPixelization.level i) in *.
  set (n := Z.to_nat (l + 1)).
  set (P := Z.to_nat (MAX_LEVEL + 1)).
  replace l with (Z.of_nat n - 1) at 1 by (subst n; lia).
  replace (MAX_LEVEL + 2 - 1) with (Z.of_nat P) by (subst P; lia).
  rewrite toString_loop by (subst n P; lia).
  replace (2 * Z.of_nat n) with (2 * (l + 1)) by (subst n; lia).
  subst l. rewrite hemisphere_bit by lia.
  rewrite (drop_ge s (P + 1)) by (subst P; lia). rewrite app_nil_r.
  replace (Z.to_nat (Z.of_nat P - Z.of_nat n)) with (P - n)%nat by lia.
  replace (P + 1 - n)%nat with (S (P - n)) by (subst n P; lia).
  rewrite drop_insert_take by (subst n P; lia).
  rewrite take_ge; [reflexivity|].
  cbn [length]. rewrite base4_digits_length. subst n P. lia.
Qed.

Lemma toString_independent (MAX_LEVEL : Z) (s : list ascii) (i : Z) :
  length s = Z.to_nat (MAX_LEVEL + 2) ->
  HtmPixelization.toString_on MAX_LEVEL s i = HtmPixelization.toString MAX_LEVEL i.
Proof.
  intros Hs. unfold HtmPixelization.toString.
  destruct (Z.ltb_spec (HtmPixelization.level i) 0) as [Hneg|Hpos].
  { unfold HtmPixelization.toString_on.
    destruct (Z.ltb_spec (HtmPixelization.level i) 0); [reflexivity|lia]. }
  destruct (Z.gtb_spec (HtmPixelization.level i) MAX_LEVEL) as [Hbig|Hsmall].
  { unfold HtmPixelization.toString_on.
    destruct (Z.gtb_spec (HtmPixelization.level i) MAX_LEVEL); [|lia].
    now rewrite orb_true_r. }
  rewrite !toString_on_valid; try reflexivity; try (split; lia); try assumption.
  apply length_replicate.
Qed.

Lemma string_of_list_ascii_length (l : list ascii) :
  String.length (string_of_list_ascii l) = length l.
Proof. induction l as [|c l IH]; simpl; [reflexivity|now rewrite IH]. Qed.

Lemma root_field_range (i : Z) :
  0 <= HtmPixelization.level i ->
  0 <= root_field i < 8
  /\ Z.testbit (root_field i) 2 = (4 <=? root_field i)
  /\ Z.shiftr i (2 * HtmPixelization.level i) = root_field i + 8.
Proof.
  intros Hl. unfold root_field, uint64.shr.
  pose proof (shiftr_valid i _ Hl eq_refl) as Hq.
  replace (HtmPixelization.level i * 2) with (2 * HtmPixelization.level i) by lia.
  generalize dependent (Z.shiftr i (2 * HtmPixelization.level i)). intros q Hq.
  assert (C : q = 8 \/ q = 9 \/ q = 10 \/ q = 11 \/ q = 12 \/ q = 13 \/ q = 14 \/ q = 15) by lia.
  destruct C as [-> | [-> | [-> | [-> | [-> | [-> | [-> | ->]]]]]]];
    (split; [split; vm_compute; [discriminate | reflexivity] | split; reflexivity]).
Qed.

(** C3, as the code has it: the first character of [toString] is taken from
    the high bit of the 3-bit root field, ['N'] for the roots 4 to 7 and
    ['S'] for the roots 0 to 3. *)
Theorem toString_first_char (MAX_LEVEL i : Z) :
  valid MAX_LEVEL i ->
  exists rest,
    HtmPixelization.toString MAX_LEVEL i
    = ok (String (if Z.testbit (root_field i) 2 then "N"%char else "S"%char) rest)
    /\ Z.testbit (root_field i) 2 = (4 <=? root_field i).
Proof.
  intros Hv. exists (string_of_list_ascii
                       (base4_digits (Z.to_nat (HtmPixelization.level i + 1)) i)).
  destruct (root_field_range i (proj1 Hv)) as (_ & Hbit & _).
  split; [|exact Hbit].
  unfold HtmPixelization.toString.
  rewrite toString_on_valid by (assumption || apply length_replicate).
  unfold hemisphere_char. rewrite Hbit. reflexivity.
Qed.

Lemma toString_first_char_witness :
  exists rest,
    HtmPixelization.toString 24 9
    = ok (String (if Z.testbit (root_field 9) 2 then "N"%char else "S"%char) rest)
    /\ Z.testbit (root_field 9) 2 = (4 <=? root_field 9).
Proof.
  apply (toString_first_char 24 9).
  unfold valid. change (HtmPixelization.level 9) with 0. lia.
Defined.

(** C3, as the specification words it, fails: the identifier 9 is valid and
    has the odd root number 1, and its string is ["S1"], which does not start
    with ['N']. *)
Lemma toString_low_bit_counterexample :
  valid 24 9
  /\ Z.odd (root_field 9) = true
  /\ HtmPixelization.toString 24 9 = ok "S1"%string
  /\ ~ (exists rest,
         HtmPixelization.toString 24 9
         = ok (String (if Z.odd (root_field 9) then "N"%char else "S"%char) rest)).
Proof.
  split; [unfold valid; change (HtmPixelization.level 9) with 0; lia|].
  split; [reflexivity|]. split; [reflexivity|].
  intros [rest E]. vm_compute in E. discriminate E.
Qed.

(** C9: for a valid identifier, [toString] returns a string of
    [level + 2] characters, the first of which is ['N'] or ['S'] and the
    others base-4 digits. *)
Theorem toString_shape (MAX_LEVEL i : Z) :
  valid MAX_LEVEL i ->
  exists (c : ascii) (rest : string),
    HtmPixelization.toString MAX_LEVEL i = ok (String c rest)
    /\ Z.of_nat (String.length (String c rest)) = HtmPixelization.level i + 2
    /\ (c = "N"%char \/ c = "S"%char)
    /\ Forall is_base4_digit (list_ascii_of_string rest).
Proof.
  intros Hv.
  exists (hemisphere_char i),
         (string_of_list_ascii
            (base4_digits (Z.to_nat (HtmPixelization.level i + 1)) i)).
  unfold HtmPixelization.toString.
  rewrite toString_on_valid by (assumption || apply length_replicate).
  split; [reflexivity|]. split; [|split].
  - cbn [String.length]. rewrite string_of_list_ascii_length, base4_digits_length.
    destruct Hv. lia.
  - unfold hemisphere_char. destruct (4 <=? root_field i); auto.
  - rewrite list_ascii_of_string_of_list_ascii. apply base4_digits_base4.
Qed.

Lemma toString_shape_witness :
  exists (c : ascii) (rest : string),
    HtmPixelization.toString 24 (8 * 4 ^ 24 + 5) = ok (String c rest)
    /\ Z.of_nat (String.length (String c rest))
       = HtmPixelization.level (8 * 4 ^ 24 + 5) + 2
    /\ (c = "N"%char \/ c = "S"%char)
    /\ Forall is_base4_digit (list_ascii_of_string rest).
Proof.
  apply (toString_shape 24 (8 * 4 ^ 24 + 5)).
  unfold valid. change (HtmPixelization.level (8 * 4 ^ 24 + 5)) with 24. lia.
Defined.

(** ** Who throws, and when *)

Lemma triangle_throws {num : Numerics} {geo : Geometry num} (MAX_LEVEL i : Z) :
  throws (HtmPixelization.triangle MAX_LEVEL i) = true <-> ~ valid MAX_LEVEL i.
Proof.
  unfold HtmPixelization.triangle, valid.
  destruct (Z.ltb_spec (HtmPixelization.level i) 0);
    destruct (Z.gtb_spec (HtmPixelization.level i) MAX_LEVEL); cbn [orb throws];
    try (split; [lia | reflexivity]).
  match goal with |- context [while ?f ?c ?b ?s] => destruct (while f c b s) end.
  cbn [throws]. split; [discriminate | lia].
Qed.

Lemma toString_throws (MAX_LEVEL i : Z) :
  throws (HtmPixelization.toString MAX_LEVEL i) = true <-> ~ valid MAX_LEVEL i.
Proof.
  destruct (Z.ltb_spec (HtmPixelization.level i) 0) as [Hneg|Hpos];
    [|destruct (Z.gtb_spec (HtmPixelization.level i) MAX_LEVEL) as [Hbig|Hsmall]].
  - unfold HtmPixelization.toString, HtmPixelization.toString_on, valid.
    destruct (Z.ltb_spec (HtmPixelization.level i) 0); [|lia].
    cbn [orb throws]. split; [lia | reflexivity].
  - unfold HtmPixelization.toString, HtmPixelization.toString_on, valid.
    destruct (Z.gtb_spec (HtmPixelization.level i) MAX_LEVEL); [|lia].
    rewrite orb_true_r. cbn [throws]. split; [lia | reflexivity].
  - unfold HtmPixelization.toString.
    rewrite toString_on_valid by (unfold valid; lia || apply length_replicate).
    cbn [throws]. unfold valid. split; [discriminate | lia].
Qed.

Lemma new_throws (MAX_LEVEL level : Z) :
  throws (HtmPixelization.new MAX_LEVEL level) = true <-> ~ (0 <= level <= MAX_LEVEL).
Proof.
  unfold HtmPixelization.new.
  destruct (Z.ltb_spec level 0); destruct (Z.gtb_spec level MAX_LEVEL);
    cbn [orb throws]; split; (lia || reflexivity || discriminate).
Qed.

(** C5: [triangle] and [toString] throw exactly on the identifiers whose
    level is outside [[0, MAX_LEVEL]], the identifier 0 among them; the
    constructor throws exactly on the levels outside [[0, MAX_LEVEL]],
    [MAX_LEVEL + 1] among them; on every other input each of them returns a
    value, and [index], on a pixelization the constructor returned, returns
    an identifier. *)
Theorem throws_exactly {num : Numerics} {geo : Geometry num} (MAX_LEVEL : Z) :
  (forall i, throws (HtmPixelization.triangle MAX_LEVEL i) = true
             <-> ~ (0 <= HtmPixelization.level i <= MAX_LEVEL))
  /\ (forall i, throws (HtmPixelization.toString MAX_LEVEL i) = true
                <-> ~ (0 <= HtmPixelization.level i <= MAX_LEVEL))
  /\ throws (HtmPixelization.triangle MAX_LEVEL 0) = true
  /\ (forall level, throws (HtmPixelization.new MAX_LEVEL level) = true
                    <-> ~ (0 <= level <= MAX_LEVEL))
  /\ throws (HtmPixelization.new MAX_LEVEL (MAX_LEVEL + 1)) = true
  /\ (forall i, 0 <= HtmPixelization.level i <= MAX_LEVEL ->
        exists p s, HtmPixelization.triangle MAX_LEVEL i = ok p
                    /\ HtmPixelization.toString MAX_LEVEL i = ok s)
  /\ (forall level, 0 <= level <= MAX_LEVEL ->
        exists self, HtmPixelization.new MAX_LEVEL level = ok self
                     /\ forall v, exists i, HtmPixelization.index self v = i).
Proof.
  split; [intros i; apply triangle_throws|].
  split; [intros i; apply toString_throws|].
  split; [apply triangle_throws; unfold valid; change (HtmPixelization.level 0) with (-1); lia|].
  split; [intros level; apply new_throws|].
  split; [apply new_throws; lia|].
  split.
  - intros i Hv.
    pose proof (proj1 (triangle_throws MAX_LEVEL i)) as Ht.
    pose proof (proj1 (toString_throws MAX_LEVEL i)) as Hs.
    destruct (HtmPixelization.triangle MAX_LEVEL i) as [p|w];
      [|exfalso; apply Ht; [reflexivity | exact Hv]].
    destruct (HtmPixelization.toString MAX_LEVEL i) as [s|w];
      [|exfalso; apply Hs; [reflexivity | exact Hv]].
    now exists p, s.
  - intros level Hl.
    pose proof (proj1 (new_throws MAX_LEVEL level)) as Hn.
    destruct (HtmPixelization.new MAX_LEVEL level) as [self|w];
      [|exfalso; apply Hn; [reflexivity | exact Hl]].
    exists self. split; [reflexivity|]. intros v. now eexists.
Qed.

(** ** One child layout in three places *)

Lemma wrap_wrap_add (a b : Z) : uint64.wrap (uint64.wrap a + b) = uint64.wrap (a + b).
Proof. unfold uint64.wrap. apply Zplus_mod_idemp_l. Qed.

Lemma mul_4_shl_2 (i : Z) : uint64.mul i 4 = uint64.shl i 2.
Proof. unfold uint64.mul, uint64.shl. now rewrite Z.shiftl_mul_pow2 by lia. Qed.

Lemma spec_child_index_0 (i : Z) : uint64.shl i 2 = spec_child_index i 0.
Proof.
  unfold spec_child_index, uint64.add, uint64.shl.
  rewrite wrap_wrap_add, Z.add_0_r. reflexivity.
Qed.

Lemma spec_child_index_succ (i c : Z) :
  uint64.add (spec_child_index i c) 1 = spec_child_index i (c + 1).
Proof.
  unfold spec_child_index, uint64.add, uint64.shl.
  rewrite wrap_wrap_add, <- Z.add_assoc, !wrap_wrap_add. reflexivity.
Qed.

Lemma children_layout {num : Numerics} {geo : Geometry num}
  (t : Trixel.t) (i lv : Z) :
  Trace.children (t, i, lv)
  = map (fun c => (spec_child c t, spec_child_index i c, lv + 1)) [0; 1; 2; 3].
Proof.
  unfold Trace.children, HtmPixelFinder.subdivide, Trace.visit.
  rewrite mul_4_shl_2, (spec_child_index_0 i).
  rewrite !spec_child_index_succ. destruct t as [a b c]. reflexivity.
Qed.

Lemma triangle_body_layout {num : Numerics} {geo : Geometry num}
  (i l : Z) (t : Trixel.t) :
  HtmPixelization.triangle_body i (l, t)
  = (l - 2, spec_child (Z.land (uint64.shr i l) 3) t).
Proof.
  unfold HtmPixelization.triangle_body. destruct t as [a b c].
  pose proof (land_3_range (uint64.shr i l)) as Hc.
  remember (Z.land (uint64.shr i l) 3) as k eqn:Ek. clear Ek.
  assert (C : k = 0 \/ k = 1 \/ k = 2 \/ k = 3) by lia.
  destruct C as [-> | [-> | [-> | ->]]]; reflexivity.
Qed.

Lemma index_body_layout {num : Numerics} {geo : Geometry num}
  (v : UnitVector3d) (l i : Z) (t : Trixel.t) :
  exists c, 0 <= c <= 3
    /\ HtmPixelization.index_body v (l, i, t)
       = (l + 1, spec_child_index i c, spec_child c t).
Proof.
  unfold HtmPixelization.index_body. destruct t as [a b c]. cbn [Trixel.v0 Trixel.v1 Trixel.v2].
  destruct (orientation v (normalized (vadd a b)) (normalized (vadd c a)) >=? 0).
  { exists 0. split; [lia|]. rewrite spec_child_index_0. reflexivity. }
  destruct (orientation v (normalized (vadd b c)) (normalized (vadd a b)) >=? 0).
  { exists 1. split; [lia|]. reflexivity. }
  destruct (orientation v (normalized (vadd c a)) (normalized (vadd b c)) >=? 0).
  { exists 2. split; [lia|]. reflexivity. }
  exists 3. split; [lia|]. reflexivity.
Qed.


(** ** Descendants are contiguous ranges *)

Lemma spec_child_index_small (i c : Z) :
  0 <= i -> 0 <= c < 4 -> 4 * i + 3 < 2 ^ 64 ->
  spec_child_index i c = 4 * i + c.
Proof.
  intros Hi Hc Hfit. unfold spec_child_index, uint64.add, uint64.shl.
  rewrite wrap_wrap_add, Z.shiftl_mul_pow2 by lia.
  unfold uint64.wrap, uint64.width. change (2 ^ 2) with 4.
  rewrite (Z.mul_comm i 4). apply Z.mod_small. lia.
Qed.

Lemma in_descendant_range_pow (i d x : Z) :
  0 <= d -> in_descendant_range i d x <-> i * 4 ^ d <= x < (i + 1) * 4 ^ d.
Proof.
  intros Hd. unfold in_descendant_range.
  rewrite !Z.shiftl_mul_pow2, <- pow4_pow2 by lia. reflexivity.
Qed.

Lemma descendants_range {num : Numerics} {geo : Geometry num} (n : nat) :
  forall (t : Trixel.t) (i l x : Z),
  0 <= i -> (i + 1) * 4 ^ Z.of_nat n <= 2 ^ 64 ->
  In x (map Trace.index_of (Trace.descendants n (t, i, l)))
  <-> i * 4 ^ Z.of_nat n <= x < (i + 1) * 4 ^ Z.of_nat n.
Proof.
  induction n as [|n IH]; intros t i l x Hi Hfit.
  - simpl. unfold Trace.index_of. simpl. lia.
  - assert (Hp : 0 < 4 ^ Z.of_nat n) by (apply pow4_pos; lia).
    assert (Es : 4 ^ Z.of_nat (S n) = 4 * 4 ^ Z.of_nat n).
    { rewrite Nat2Z.inj_succ, <- Z.add_1_r. apply pow4_succ. lia. }
    rewrite Es in *.
    cbn [Trace.descendants]. rewrite children_layout.
    assert (Ec : forall c, 0 <= c < 4 -> spec_child_index i c = 4 * i + c)
      by (intros c Hc; apply spec_child_index_small; nia).
    cbn [map flat_map]. rewrite app_nil_r, !map_app, !in_app_iff.
    rewrite !IH by (rewrite ?Ec by lia; nia).
    rewrite !Ec by lia. nia.
Qed.

Lemma valid_descendants_fit (MAX_LEVEL i l L : Z) :
  fits MAX_LEVEL -> 0 <= l -> HtmPixelization.level i = l -> l <= L <= MAX_LEVEL ->
  0 <= i /\ (i + 1) * 4 ^ (L - l) <= 2 ^ 64.
Proof.
  unfold fits, uint64.width. intros Hf Hl E HL.
  pose proof (level_bounds i l Hl E) as Hi.
  pose proof (pow4_pos l Hl). pose proof (pow4_pos (L - l) ltac:(lia)).
  split; [lia|].
  assert (E4 : 4 ^ L = 4 ^ l * 4 ^ (L - l))
    by (rewrite <- Z.pow_add_r by lia; f_equal; lia).
  assert (H16 : 16 * 4 ^ L <= 2 ^ 64).
  { rewrite pow4_pow2 by lia. change 16 with (2 ^ 4).
    rewrite <- Z.pow_add_r by lia. apply Z.pow_le_mono_r; lia. }
  nia.
Qed.

Lemma child_ranges_partition (i d : Z) :
  0 < d ->
  (forall x, in_descendant_range i d x
             <-> exists k, 0 <= k < 4 /\ in_descendant_range (4 * i + k) (d - 1) x)
  /\ (forall x j k, 0 <= j < 4 -> 0 <= k < 4 ->
        in_descendant_range (4 * i + j) (d - 1) x ->
        in_descendant_range (4 * i + k) (d - 1) x -> j = k)
  /\ (forall k, 0 <= k < 4 ->
        (forall x, in_descendant_range (4 * i + k) (d - 1) x -> in_descendant_range i d x)
        /\ exists x, in_descendant_range i d x
                     /\ ~ in_descendant_range (4 * i + k) (d - 1) x).
Proof.
  intros Hd.
  assert (Hw : 0 < 4 ^ (d - 1)) by (apply pow4_pos; lia).
  assert (E : 4 ^ d = 4 * 4 ^ (d - 1)).
  { replace d with (d - 1 + 1) at 1 by lia. apply pow4_succ. lia. }
  assert (R : forall j x, in_descendant_range j (d - 1) x
                          <-> j * 4 ^ (d - 1) <= x < (j + 1) * 4 ^ (d - 1))
    by (intros; apply in_descendant_range_pow; lia).
  assert (P : forall x, in_descendant_range i d x
                        <-> 4 * (i * 4 ^ (d - 1)) <= x < 4 * (i * 4 ^ (d - 1)) + 4 * 4 ^ (d - 1)).
  { intros x. rewrite in_descendant_range_pow, E by lia. lia. }
  remember (4 ^ (d - 1)) as w eqn:Ew. clear Ew E.
  assert (K : forall k, 0 <= k < 4 -> k = 0 \/ k = 1 \/ k = 2 \/ k = 3) by (intros; lia).
  split; [|split].
  - intros x. rewrite P. split.
    + intros Hx.
      destruct (Z_lt_le_dec x ((4 * i + 1) * w)); [exists 0; rewrite R; lia|].
      destruct (Z_lt_le_dec x ((4 * i + 2) * w)); [exists 1; rewrite R; lia|].
      destruct (Z_lt_le_dec x ((4 * i + 3) * w)); [exists 2; rewrite R; lia|].
      exists 3; rewrite R; lia.
    + intros (k & Hk & Hx). rewrite R in Hx.
      destruct (K k Hk) as [-> | [-> | [-> | ->]]]; lia.
  - intros x j k Hj Hk Hxj Hxk. rewrite R in Hxj, Hxk.
    destruct (K j Hj) as [-> | [-> | [-> | ->]]];
      destruct (K k Hk) as [-> | [-> | [-> | ->]]]; lia.
  - intros k Hk. split.
    + intros x Hx. rewrite R in Hx. rewrite P.
      destruct (K k Hk) as [-> | [-> | [-> | ->]]]; lia.
    + exists (if k =? 0 then 4 * (i * w) + 4 * w - 1 else 4 * (i * w)).
      rewrite P, R.
      destruct (K k Hk) as [-> | [-> | [-> | ->]]]; cbn [Z.eqb]; lia.
Qed.

(** C7: the descendants of the node [i] of level [l] at the target level
    [L] are the identifiers of the range
    [[i << 2(L - l), (i + 1) << 2(L - l))]; when the node is subdivided
    ([l < L]), its children are [4i], [4i + 1], [4i + 2] and [4i + 3] at level
    [l + 1], their descendants are the ranges of the same kind, and these
    four ranges cover the parent's range, do not overlap, and are each
    strictly contained in it. *)
Theorem descendant_ranges {num : Numerics} {geo : Geometry num}
  (MAX_LEVEL : Z) (t : Trixel.t) (i l L : Z) :
  fits MAX_LEVEL -> 0 <= l -> HtmPixelization.level i = l -> l <= L <= MAX_LEVEL ->
  (forall x, In x (map Trace.index_of (Trace.descendants (Z.to_nat (L - l)) (t, i, l)))
             <-> in_descendant_range i (L - l) x)
  /\ (l < L ->
      map (fun c : Trace.node => (Trace.index_of c, snd c)) (Trace.children (t, i, l))
      = [(4 * i, l + 1); (4 * i + 1, l + 1); (4 * i + 2, l + 1); (4 * i + 3, l + 1)]
      /\ (forall c x, In c (Trace.children (t, i, l)) ->
            In x (map Trace.index_of (Trace.descendants (Z.to_nat (L - (l + 1))) c))
            <-> in_descendant_range (Trace.index_of c) (L - (l + 1)) x)
      /\ (forall x, in_descendant_range i (L - l) x
                    <-> exists k, 0 <= k < 4
                          /\ in_descendant_range (4 * i + k) (L - (l + 1)) x)
      /\ (forall x j k, 0 <= j < 4 -> 0 <= k < 4 ->
            in_descendant_range (4 * i + j) (L - (l + 1)) x ->
            in_descendant_range (4 * i + k) (L - (l + 1)) x -> j = k)
      /\ (forall k, 0 <= k < 4 ->
            (forall x, in_descendant_range (4 * i + k) (L - (l + 1)) x ->
                       in_descendant_range i (L - l) x)
            /\ exists x, in_descendant_range i (L - l) x
                         /\ ~ in_descendant_range (4 * i + k) (L - (l + 1)) x)).
Proof.
  intros Hf Hl E HL.
  destruct (valid_descendants_fit MAX_LEVEL i l L Hf Hl E HL) as [Hi Hfit].
  assert (D : forall (t' : Trixel.t) i' l' d x,
             0 <= d -> 0 <= i' -> (i' + 1) * 4 ^ d <= 2 ^ 64 ->
             In x (map Trace.index_of (Trace.descendants (Z.to_nat d) (t', i', l')))
             <-> in_descendant_range i' d x).
  { intros t' i' l' d x Hd Hi' Hfit'.
    rewrite in_descendant_range_pow by lia.
    rewrite <- (Z2Nat.id d) at 2 3 by lia.
    apply descendants_range; [lia|]. rewrite Z2Nat.id by lia. exact Hfit'. }
  split; [intros x; apply D; lia|].
  intros Hlt.
  assert (Hw : 0 < 4 ^ (L - (l + 1))) by (apply pow4_pos; lia).
  assert (E4 : 4 ^ (L - l) = 4 * 4 ^ (L - (l + 1))).
  { replace (L - l) with (L - (l + 1) + 1) by lia. apply pow4_succ. lia. }
  assert (Ec : forall c, 0 <= c < 4 -> spec_child_index i c = 4 * i + c)
    by (intros c Hc; apply spec_child_index_small; nia).
  replace (L - (l + 1)) with (L - l - 1) in * by lia.
  destruct (child_ranges_partition i (L - l) ltac:(lia)) as (Hcover & Hdisj & Hstrict).
  split; [|split; [|split; [exact Hcover | split; [exact Hdisj | exact Hstrict]]]].
  - rewrite children_layout. cbn [map Trace.index_of fst snd].
    rewrite !Ec by lia. rewrite Z.add_0_r. reflexivity.
  - intros c x Hc. rewrite children_layout in Hc. cbn [map In] in Hc.
    destruct Hc as [<- | [<- | [<- | [<- | []]]]];
      cbn [Trace.index_of fst snd]; rewrite Ec by lia; apply D; nia.
Qed.

Lemma descendant_ranges_witness :
  (forall x, In x (map Trace.index_of
                     (Trace.descendants (geo := exact.geometry) (Z.to_nat (2 - 1))
                        (exact_root 1, 37, 1)))
             <-> in_descendant_range 37 (2 - 1) x)
  /\ (1 < 2 ->
      map (fun c : Trace.node => (Trace.index_of c, snd c))
          (Trace.children (geo := exact.geometry) (exact_root 1, 37, 1))
      = [(4 * 37, 1 + 1); (4 * 37 + 1, 1 + 1); (4 * 37 + 2, 1 + 1); (4 * 37 + 3, 1 + 1)]
      /\ (forall c x, In c (Trace.children (geo := exact.geometry) (exact_root 1, 37, 1)) ->
            In x (map Trace.index_of (Trace.descendants (geo := exact.geometry) (Z.to_nat (2 - (1 + 1))) c))
            <-> in_descendant_range (Trace.index_of c) (2 - (1 + 1)) x)
      /\ (forall x, in_descendant_range 37 (2 - 1) x
                    <-> exists k, 0 <= k < 4
                          /\ in_descendant_range (4 * 37 + k) (2 - (1 + 1)) x)
      /\ (forall x j k, 0 <= j < 4 -> 0 <= k < 4 ->
            in_descendant_range (4 * 37 + j) (2 - (1 + 1)) x ->
            in_descendant_range (4 * 37 + k) (2 - (1 + 1)) x -> j = k)
      /\ (forall k, 0 <= k < 4 ->
            (forall x, in_descendant_range (4 * 37 + k) (2 - (1 + 1)) x ->
                       in_descendant_range 37 (2 - 1) x)
            /\ exists x, in_descendant_range 37 (2 - 1) x
                         /\ ~ in_descendant_range (4 * 37 + k) (2 - (1 + 1)) x)).
Proof.
  apply (descendant_ranges (geo := exact.geometry) 24 (exact_root 1) 37 1 2).
  - unfold fits, uint64.width. lia.
  - lia.
  - reflexivity.
  - lia.
Defined.

(** ** The descent of [index] and its replay by [triangle] *)

Lemma path_value_bounds (cs : list Z) :
  forall i, Forall is_code cs ->
  i * 4 ^ Z.of_nat (length cs) <= path_value i cs < (i + 1) * 4 ^ Z.of_nat (length cs).
Proof.
  induction cs as [|c cs IH]; intros i Hcs.
  - simpl. lia.
  - inversion Hcs as [|? ? Hc Hcs']; subst.
    specialize (IH (4 * i + c) Hcs'). unfold is_code in Hc.
    assert (Hp : 0 < 4 ^ Z.of_nat (length cs)) by (apply pow4_pos; lia).
    assert (Es : 4 ^ Z.of_nat (length (c :: cs)) = 4 * 4 ^ Z.of_nat (length cs)).
    { cbn [length]. rewrite Nat2Z.inj_succ, <- Z.add_1_r. apply pow4_succ. lia. }
    rewrite Es. change (path_value i (c :: cs)) with (path_value (4 * i + c) cs). nia.
Qed.

Lemma path_index_value (cs : list Z) :
  forall i, Forall is_code cs -> 0 <= i ->
  (i + 1) * 4 ^ Z.of_nat (length cs) <= 2 ^ 64 ->
  path_index i cs = path_value i cs.
Proof.
  induction cs as [|c cs IH]; intros i Hcs Hi Hfit; [reflexivity|].
  inversion Hcs as [|? ? Hc Hcs']; subst. unfold is_code in Hc.
  assert (Hp : 0 < 4 ^ Z.of_nat (length cs)) by (apply pow4_pos; lia).
  assert (Es : 4 ^ Z.of_nat (length (c :: cs)) = 4 * 4 ^ Z.of_nat (length cs)).
  { cbn [length]. rewrite Nat2Z.inj_succ, <- Z.add_1_r. apply pow4_succ. lia. }
  rewrite Es in Hfit.
  change (path_index i (c :: cs)) with (path_index (spec_child_index i c) cs).
  change (path_value i (c :: cs)) with (path_value (4 * i + c) cs).
  rewrite spec_child_index_small by nia. apply IH; [assumption | lia | nia].
Qed.

Lemma path_value_app (i : Z) (a b : list Z) :
  path_value i (a ++ b) = path_value (path_value i a) b.
Proof. apply fold_left_app. Qed.

Lemma path_value_shiftr (i : Z) (a b : list Z) :
  Forall is_code b ->
  Z.shiftr (path_value i (a ++ b)) (2 * Z.of_nat (length b)) = path_value i a.
Proof.
  intros Hb. rewrite path_value_app.
  pose proof (path_value_bounds b (path_value i a) Hb) as Hr.
  assert (Hp : 0 < 4 ^ Z.of_nat (length b)) by (apply pow4_pos; lia).
  rewrite Z.shiftr_div_pow2, <- pow4_pow2 by lia.
  symmetry. apply Z.div_unique with (r := path_value (path_value i a) b
                                          - path_value i a * 4 ^ Z.of_nat (length b)); lia.
Qed.

Lemma land_3_code (j c : Z) : is_code c -> Z.land (4 * j + c) 3 = c.
Proof.
  unfold is_code. intros Hc. change 3 with (Z.ones 2). rewrite Z.land_ones by lia.
  change (2 ^ 2) with 4. rewrite Z.add_comm, Z.mul_comm, Z_mod_plus_full.
  apply Z.mod_small. lia.
Qed.

(** The loop of [index] runs [_level] times, appends one code per iteration
    and keeps any property of the trixel that one iteration keeps. *)
Lemma index_loop_path {num : Numerics} {geo : Geometry num}
  (Inv : Trixel.t -> Prop) (v : UnitVector3d) (L : Z) :
  (forall l i t, Inv t -> Inv (snd (HtmPixelization.index_body v (l, i, t)))) ->
  forall (n : nat) (k i : Z) (t : Trixel.t),
  k + Z.of_nat n = L -> Inv t ->
  exists cs, length cs = n /\ Forall is_code cs
    /\ while n (fun st : Z * Z * Trixel.t => fst (fst st) <? L)
             (HtmPixelization.index_body v) (k, i, t)
       = (L, path_index i cs, path_trixel t cs)
    /\ Inv (path_trixel t cs).
Proof.
  intros Hstep n. induction n as [|n IH]; intros k i t Hk Ht.
  - exists []. simpl. replace k with L by lia. auto.
  - rewrite while_step by (cbn beta; cbn [fst]; apply Z.ltb_lt; lia).
    destruct (index_body_layout v k i t) as (c & Hc & Eb).
    pose proof (Hstep k i t Ht) as Ht'. rewrite Eb in *. cbn [snd] in Ht'.
    destruct (IH (k + 1) (spec_child_index i c) (spec_child c t) ltac:(lia) Ht')
      as (cs & Hlen & Hcs & Ew & Hinv).
    exists (c :: cs). cbn [length]. split; [lia|]. split; [now constructor|].
    split; [exact Ew | exact Hinv].
Qed.

Lemma index_root_range {num : Numerics} (v : UnitVector3d) :
  0 <= HtmPixelization.index_root v <= 7.
Proof.
  unfold HtmPixelization.index_root.
  repeat match goal with |- context [if ?b then _ else _] => destruct b end; lia.
Qed.

Lemma new_ok (MAX_LEVEL L : Z) (self : HtmPixelization.t) :
  HtmPixelization.new MAX_LEVEL L = ok self ->
  0 <= L <= MAX_LEVEL /\ HtmPixelization._level self = L.
Proof.
  unfold HtmPixelization.new.
  destruct (Z.ltb_spec L 0); destruct (Z.gtb_spec L MAX_LEVEL); cbn [orb];
    try discriminate.
  intros [= <-]. split; [lia | reflexivity].
Qed.

Lemma pow4_fits (MAX_LEVEL L : Z) :
  fits MAX_LEVEL -> 0 <= L <= MAX_LEVEL -> 16 * 4 ^ L <= 2 ^ 64.
Proof.
  unfold fits, uint64.width. intros Hf HL.
  rewrite pow4_pow2 by lia. change 16 with (2 ^ 4).
  rewrite <- Z.pow_add_r by lia. apply Z.pow_le_mono_r; lia.
Qed.

(** What [index] returns: the root's identifier followed by [_level] codes,
    and the trixel the codes lead to. *)
Lemma index_path {num : Numerics} {geo : Geometry num}
  (Inv : Trixel.t -> Prop) (MAX_LEVEL L : Z) (self : HtmPixelization.t)
  (v : UnitVector3d) :
  fits MAX_LEVEL ->
  HtmPixelization.new MAX_LEVEL L = ok self ->
  (forall l i t, Inv t -> Inv (snd (HtmPixelization.index_body v (l, i, t)))) ->
  Inv (root_trixel (HtmPixelization.index_root v)) ->
  exists cs, Z.of_nat (length cs) = L /\ Forall is_code cs
    /\ HtmPixelization.index self v
       = path_value (HtmPixelization.index_root v + 8) cs
    /\ snd (HtmPixelization.index_descent self v)
       = path_trixel (root_trixel (HtmPixelization.index_root v)) cs
    /\ Inv (path_trixel (root_trixel (HtmPixelization.index_root v)) cs).
Proof.
  intros Hf Hnew Hstep Hroot.
  destruct (new_ok _ _ _ Hnew) as [HL EL].
  pose proof (index_root_range v) as Hr.
  unfold HtmPixelization.index, HtmPixelization.index_descent. rewrite EL.
  destruct (index_loop_path Inv v L Hstep (Z.to_nat L) 0
              (uint64.add (HtmPixelization.index_root v) 8)
              (root_trixel (HtmPixelization.index_root v)) ltac:(lia) Hroot)
    as (cs & Hlen & Hcs & Ew & Hinv).
  exists cs. rewrite Ew. cbn [fst snd].
  split; [lia|]. split; [exact Hcs|]. split; [|split; [reflexivity | exact Hinv]].
  assert (Ea : uint64.add (HtmPixelization.index_root v) 8
               = HtmPixelization.index_root v + 8).
  { unfold uint64.add, uint64.wrap, uint64.width. apply Z.mod_small. lia. }
  rewrite Ea. apply path_index_value; [exact Hcs | lia |].
  rewrite Hlen, Z2Nat.id by lia.
  pose proof (pow4_fits MAX_LEVEL L Hf HL). pose proof (pow4_pos L ltac:(lia)). nia.
Qed.

(** The loop of [triangle] reads back the codes at the low end of the
    identifier, shallowest first. *)
Lemma triangle_loop_path {num : Numerics} {geo : Geometry num} (cs2 : list Z) :
  forall (cs1 : list Z) (i0 : Z) (t : Trixel.t) (fuel : nat),
  Forall is_code cs2 -> (length cs2 <= fuel)%nat ->
  while fuel (fun st : Z * Trixel.t => fst st >=? 0)
        (HtmPixelization.triangle_body (path_value i0 (cs1 ++ cs2)))
        (2 * Z.of_nat (length cs2) - 2, t)
  = (-2, path_trixel t cs2).
Proof.
  induction cs2 as [|c cs2 IH]; intros cs1 i0 t fuel Hcs Hfuel.
  - apply while_done. reflexivity.
  - inversion Hcs as [|? ? Hc Hcs']; subst.
    destruct fuel as [|fuel]; [cbn [length] in Hfuel; lia|].
    cbn [length] in *.
    rewrite while_step by (cbn beta; cbn [fst]; apply Z.geb_le; lia).
    rewrite triangle_body_layout.
    replace (2 * Z.of_nat (S (length cs2)) - 2) with (2 * Z.of_nat (length cs2)) by lia.
    replace (cs1 ++ c :: cs2) with ((cs1 ++ [c]) ++ cs2) by (now rewrite <- app_assoc).
    assert (Ed : Z.land (Z.shiftr (path_value i0 ((cs1 ++ [c]) ++ cs2))
                                  (2 * Z.of_nat (length cs2))) 3 = c).
    { rewrite path_value_shiftr by assumption. rewrite path_value_app.
      apply (land_3_code (path_value i0 cs1) c Hc). }
    unfold uint64.shr at 1. rewrite Ed.
    apply IH; [assumption | lia].
Qed.

(** [triangle] on an identifier made of a root and codes: the trixel the
    codes lead to from that root. *)
Lemma triangle_path {num : Numerics} {geo : Geometry num}
  (MAX_LEVEL r : Z) (cs : list Z) :
  0 <= r <= 7 -> Forall is_code cs -> Z.of_nat (length cs) <= MAX_LEVEL ->
  HtmPixelization.triangle MAX_LEVEL (path_value (r + 8) cs)
  = ok (path_trixel (root_trixel r) cs).
Proof.
  intros Hr Hcs Hlen.
  pose proof (path_value_bounds cs (r + 8) Hcs) as Hb.
  assert (Hp : 0 < 4 ^ Z.of_nat (length cs)) by (apply pow4_pos; lia).
  assert (El : HtmPixelization.level (path_value (r + 8) cs) = Z.of_nat (length cs))
    by (apply level_of_bounds; nia).
  unfold HtmPixelization.triangle. rewrite El.
  destruct (Z.ltb_spec (Z.of_nat (length cs)) 0); [lia|].
  destruct (Z.gtb_spec (Z.of_nat (length cs)) MAX_LEVEL); [lia|].
  cbn [orb].
  replace (Z.of_nat (length cs) * 2) with (2 * Z.of_nat (length cs)) by lia.
  pose proof (path_value_shiftr (r + 8) [] cs Hcs) as Es. cbn [app] in Es.
  unfold uint64.shr at 1. rewrite Es. change (path_value (r + 8) []) with (r + 8).
  assert (E7 : Z.land (r + 8) 7 = r).
  { assert (C : r = 0 \/ r = 1 \/ r = 2 \/ r = 3 \/ r = 4 \/ r = 5 \/ r = 6 \/ r = 7) by lia.
    destruct C as [-> | [-> | [-> | [-> | [-> | [-> | [-> | ->]]]]]]]; reflexivity. }
  rewrite E7.
  pose proof (triangle_loop_path cs [] (r + 8) (root_trixel r)
                (Z.to_nat (2 * Z.of_nat (length cs))) Hcs ltac:(lia)) as Ew.
  cbn [app] in Ew. rewrite Ew. reflexivity.
Qed.

(** C8: on a pixelization of level [L] in [[0, MAX_LEVEL]], [index] returns
    an identifier between [8 * 4^L] and [16 * 4^L], which is valid and whose
    level is [L]. *)
Theorem index_level {num : Numerics} {geo : Geometry num}
  (MAX_LEVEL L : Z) (self : HtmPixelization.t) (v : UnitVector3d) :
  fits MAX_LEVEL ->
  HtmPixelization.new MAX_LEVEL L = ok self ->
  HtmPixelization.level (HtmPixelization.index self v) = L
  /\ valid MAX_LEVEL (HtmPixelization.index self v)
  /\ 8 * 4 ^ L <= HtmPixelization.index self v < 16 * 4 ^ L.
Proof.
  intros Hf Hnew.
  destruct (new_ok _ _ _ Hnew) as [HL _].
  destruct (index_path (fun _ => True) MAX_LEVEL L self v Hf Hnew
              ltac:(auto) I) as (cs & Hlen & Hcs & Ei & _ & _).
  pose proof (index_root_range v) as Hr.
  pose proof (path_value_bounds cs (HtmPixelization.index_root v + 8) Hcs) as Hb.
  rewrite Hlen in Hb. rewrite <- Ei in Hb.
  pose proof (pow4_pos L ltac:(lia)) as Hp.
  assert (Hrange : 8 * 4 ^ L <= HtmPixelization.index self v < 16 * 4 ^ L) by nia.
  assert (El : HtmPixelization.level (HtmPixelization.index self v) = L)
    by (apply level_of_bounds; lia).
  unfold valid. rewrite El. repeat split; lia.
Qed.

Lemma index_level_witness :
  HtmPixelization.level
    (HtmPixelization.index (geo := exact.geometry) (HtmPixelization.Build 2)
       (Vector3d.make 1%R 0%R 0%R)) = 2
  /\ valid 24 (HtmPixelization.index (geo := exact.geometry) (HtmPixelization.Build 2)
                 (Vector3d.make 1%R 0%R 0%R))
  /\ 8 * 4 ^ 2
     <= HtmPixelization.index (geo := exact.geometry) (HtmPixelization.Build 2)
          (Vector3d.make 1%R 0%R 0%R)
     < 16 * 4 ^ 2.
Proof.
  apply (index_level (geo := exact.geometry) 24 2 (HtmPixelization.Build 2)
           (Vector3d.make 1%R 0%R 0%R)).
  - unfold fits, uint64.width. lia.
  - reflexivity.
Defined.

(** The identifier [index] returns starts with the identifier of the root it
    selected. *)
Lemma index_root_prefix {num : Numerics} {geo : Geometry num}
  (MAX_LEVEL L : Z) (self : HtmPixelization.t) (v : UnitVector3d) :
  fits MAX_LEVEL ->
  HtmPixelization.new MAX_LEVEL L = ok self ->
  Z.shiftr (HtmPixelization.index self v) (2 * L) = HtmPixelization.index_root v + 8.
Proof.
  intros Hf Hnew.
  destruct (index_path (fun _ => True) MAX_LEVEL L self v Hf Hnew
              ltac:(auto) I) as (cs & Hlen & Hcs & Ei & _ & _).
  rewrite Ei, <- Hlen.
  apply (path_value_shiftr (HtmPixelization.index_root v + 8) [] cs Hcs).
Qed.

(** ** Root selection on doubles *)

Ltac float_cases x :=
  rewrite ?FloatAxioms.eqb_spec, ?FloatAxioms.ltb_spec, ?FloatAxioms.leb_spec in *;
  change (Prim2SF 0%float) with (S754_zero false) in *;
  destruct (Prim2SF x) as [[|]|[|]| |[|] m e]; cbn in *; congruence.

Lemma float_eq0_not_gt (a : float) :
  PrimFloat.eqb a 0 = true -> PrimFloat.ltb 0 a = false.
Proof. intros H. float_cases a. Qed.

Lemma float_eq0_ge (a : float) :
  PrimFloat.eqb a 0 = true -> PrimFloat.leb 0 a = true.
Proof. intros H. float_cases a. Qed.

Lemma float_gt0_ge (a : float) :
  PrimFloat.ltb 0 a = true -> PrimFloat.leb 0 a = true.
Proof. intros H. float_cases a. Qed.

Lemma float_lt0_not_ge (a : float) :
  PrimFloat.ltb a 0 = true -> PrimFloat.leb 0 a = false.
Proof. intros H. float_cases a. Qed.

Lemma float_lt0_not_gt (a : float) :
  PrimFloat.ltb a 0 = true -> PrimFloat.ltb 0 a = false.
Proof. intros H. float_cases a. Qed.

Lemma float_lt0_not_eq (a : float) :
  PrimFloat.ltb a 0 = true -> PrimFloat.eqb a 0 = false.
Proof. intros H. float_cases a. Qed.

Lemma ieee_index_root_unfold (x y z : float) :
  ieee.index_root x y z
  = if PrimFloat.ltb z 0 then
      if PrimFloat.ltb 0 y then (if PrimFloat.ltb 0 x then 0 else 1)
      else if PrimFloat.eqb y 0 then (if PrimFloat.leb 0 x then 0 else 2)
      else (if PrimFloat.ltb x 0 then 2 else 3)
    else
      if PrimFloat.ltb 0 y then (if PrimFloat.ltb 0 x then 7 else 6)
      else if PrimFloat.eqb y 0 then (if PrimFloat.leb 0 x then 7 else 5)
      else (if PrimFloat.ltb x 0 then 5 else 4).
Proof. reflexivity. Qed.

(** C10: a double-precision point with first and second coordinates equal to
    zero is assigned root 0 when its third coordinate is negative and root 7
    otherwise, and the identifier [index] returns for it starts with 8 or 15
    accordingly. *)
Theorem z_axis_root (x y z : float) :
  PrimFloat.eqb x 0 = true -> PrimFloat.eqb y 0 = true ->
  ieee.index_root x y z = (if PrimFloat.ltb z 0 then 0 else 7)
  /\ forall (geo : Geometry ieee.numerics) (MAX_LEVEL L : Z) (self : HtmPixelization.t),
       fits MAX_LEVEL -> HtmPixelization.new MAX_LEVEL L = ok self ->
       Z.shiftr (HtmPixelization.index self (ieee.point x y z)) (2 * L)
       = (if PrimFloat.ltb z 0 then 8 else 15).
Proof.
  intros Hx Hy.
  assert (Er : ieee.index_root x y z = (if PrimFloat.ltb z 0 then 0 else 7)).
  { rewrite ieee_index_root_unfold.
    rewrite (float_eq0_not_gt y Hy), Hy, (float_eq0_ge x Hx). reflexivity. }
  split; [exact Er|].
  intros geo MAX_LEVEL L self Hf Hnew.
  rewrite (index_root_prefix MAX_LEVEL L self _ Hf Hnew).
  change (HtmPixelization.index_root (ieee.point x y z)) with (ieee.index_root x y z).
  rewrite Er. destruct (PrimFloat.ltb z 0); reflexivity.
Qed.

Lemma z_axis_root_witness :
  ieee.index_root 0 0 (-1) = (if PrimFloat.ltb (-1) 0 then 0 else 7)
  /\ forall (geo : Geometry ieee.numerics) (MAX_LEVEL L : Z) (self : HtmPixelization.t),
       fits MAX_LEVEL -> HtmPixelization.new MAX_LEVEL L = ok self ->
       Z.shiftr (HtmPixelization.index self (ieee.point 0 0 (-1))) (2 * L)
       = (if PrimFloat.ltb (-1) 0 then 8 else 15).
Proof. apply (z_axis_root 0 0 (-1)); reflexivity. Defined.

(** C2, as the code has it: on a double-precision point whose second
    coordinate is zero, the root is that of the positive-second-coordinate
    side when the first coordinate is positive (root 0 or 7), that of the
    negative-second-coordinate side when the first coordinate is negative
    (root 2 or 5), and root 0 or 7 when the first coordinate is zero. *)
Theorem root_on_y_zero (x y z : float) :
  PrimFloat.eqb y 0 = true ->
  (PrimFloat.ltb 0 x = true ->
     ieee.index_root x y z = (if PrimFloat.ltb z 0 then 0 else 7)
     /\ forall y', PrimFloat.ltb 0 y' = true ->
                   ieee.index_root x y' z = ieee.index_root x y z)
  /\ (PrimFloat.ltb x 0 = true ->
        ieee.index_root x y z = (if PrimFloat.ltb z 0 then 2 else 5)
        /\ forall y', PrimFloat.ltb y' 0 = true ->
                      ieee.index_root x y' z = ieee.index_root x y z)
  /\ (PrimFloat.eqb x 0 = true ->
        ieee.index_root x y z = (if PrimFloat.ltb z 0 then 0 else 7)).
Proof.
  intros Hy. rewrite !ieee_index_root_unfold.
  rewrite (float_eq0_not_gt y Hy), Hy.
  split; [|split].
  - intros Hx. rewrite (float_gt0_ge x Hx). split; [reflexivity|].
    intros y' Hy'. rewrite ieee_index_root_unfold, Hy', Hx. reflexivity.
  - intros Hx. rewrite (float_lt0_not_ge x Hx). split; [reflexivity|].
    intros y' Hy'. rewrite ieee_index_root_unfold.
    rewrite (float_lt0_not_gt y' Hy'), (float_lt0_not_eq y' Hy'), Hx. reflexivity.
  - intros Hx. rewrite (float_eq0_ge x Hx). reflexivity.
Qed.

Lemma root_on_y_zero_witness :
  (PrimFloat.ltb 0 (-1) = true ->
     ieee.index_root (-1) 0 0 = (if PrimFloat.ltb 0 0 then 0 else 7)
     /\ forall y', PrimFloat.ltb 0 y' = true ->
                   ieee.index_root (-1) y' 0 = ieee.index_root (-1) 0 0)
  /\ (PrimFloat.ltb (-1) 0 = true ->
        ieee.index_root (-1) 0 0 = (if PrimFloat.ltb 0 0 then 2 else 5)
        /\ forall y', PrimFloat.ltb y' 0 = true ->
                      ieee.index_root (-1) y' 0 = ieee.index_root (-1) 0 0)
  /\ (PrimFloat.eqb (-1) 0 = true ->
        ieee.index_root (-1) 0 0 = (if PrimFloat.ltb 0 0 then 0 else 7)).
Proof. apply (root_on_y_zero (-1) 0 0). reflexivity. Defined.

(** C2, as the specification words it, fails: the point [(-1, 0, 0)] has a
    zero second coordinate and is assigned root 5, whereas [(-1, y', 0)] is
    assigned root 6 for positive [y'], the smallest positive double
    included. *)
Lemma root_on_y_zero_counterexample :
  PrimFloat.eqb 0 0 = true
  /\ PrimFloat.ltb 0 smallest_positive = true
  /\ ieee.index_root (-1) 0 0 = 5
  /\ ieee.index_root (-1) smallest_positive 0 = 6
  /\ ieee.index_root (-1) 1 0 = 6
  /\ ieee.index_root (-1) 0 0 <> ieee.index_root (-1) smallest_positive 0.
Proof. repeat split; try reflexivity. vm_compute. discriminate. Qed.

(** [triangle] undoes [index]: it returns the trixel the descent ended in. *)
Lemma triangle_index {num : Numerics} {geo : Geometry num}
  (MAX_LEVEL L : Z) (self : HtmPixelization.t) (v : UnitVector3d) :
  fits MAX_LEVEL ->
  HtmPixelization.new MAX_LEVEL L = ok self ->
  HtmPixelization.triangle MAX_LEVEL (HtmPixelization.index self v)
  = ok (snd (HtmPixelization.index_descent self v)).
Proof.
  intros Hf Hnew.
  destruct (new_ok _ _ _ Hnew) as [HL _].
  destruct (index_path (fun _ => True) MAX_LEVEL L self v Hf Hnew
              ltac:(auto) I) as (cs & Hlen & Hcs & Ei & Et & _).
  rewrite Ei, Et. apply triangle_path; [apply index_root_range | exact Hcs | lia].
Qed.

(** * Further properties of the code *)

(** ** Levels and identifiers *)

(** X1: the identifiers of level [l] are those from [8 * 4^l] up to, and
    not including, [16 * 4^l]. *)
Theorem level_range_iff (l i : Z) :
  0 <= l ->
  HtmPixelization.level i = l <-> 8 * 4 ^ l <= i < 16 * 4 ^ l.
Proof.
  intros Hl. split; [now apply level_bounds | now apply level_of_bounds].
Qed.

Lemma level_range_iff_witness :
  HtmPixelization.level 35 = 1 <-> 8 * 4 ^ 1 <= 35 < 16 * 4 ^ 1.
Proof. apply (level_range_iff 1 35). lia. Defined.

(** X2: on a 64-bit argument [level] returns [-1] or a level between 0 and
    30, and it returns [-1] on every argument below 8. *)
Theorem level_is_bounded (i : Z) :
  uint64.in_range i ->
  (HtmPixelization.level i = -1 \/ 0 <= HtmPixelization.level i <= 30)
  /\ (i < 8 -> HtmPixelization.level i = -1).
Proof.
  intros [Hlo Hhi]. unfold uint64.width in Hhi.
  assert (Hj : 0 <= HtmPixelization.log2 i < 64).
  { unfold HtmPixelization.log2. split; [apply Z.log2_nonneg|].
    destruct (Z.eq_dec i 0) as [-> | Hnz]; [reflexivity|].
    apply Z.log2_lt_pow2; lia. }
  rewrite (level_of_log2 i _ eq_refl).
  remember (HtmPixelization.log2 i) as j eqn:Ej.
  split.
  - destruct (Z.odd j && (1 <? j)) eqn:E; [right | now left].
    apply andb_true_iff in E. destruct E as [Ho E]. apply Z.ltb_lt in E.
    apply Z.odd_spec in Ho. destruct Ho as [m Em].
    split; [apply Z.div_le_lower_bound; lia | apply Z.div_le_upper_bound; lia].
  - intros H8.
    assert (Hj3 : j < 3).
    { subst j. unfold HtmPixelization.log2.
      destruct (Z.eq_dec i 0) as [-> | Hnz]; [reflexivity|].
      apply Z.log2_lt_pow2; [lia|]. change (2 ^ 3) with 8. exact H8. }
    assert (C : j = 0 \/ j = 1 \/ j = 2) by lia.
    destruct C as [-> | [-> | ->]]; reflexivity.
Qed.

Lemma level_is_bounded_witness :
  (HtmPixelization.level 7 = -1 \/ 0 <= HtmPixelization.level 7 <= 30)
  /\ (7 < 8 -> HtmPixelization.level 7 = -1).
Proof. apply (level_is_bounded 7). unfold uint64.in_range, uint64.width. lia. Defined.

Lemma shiftr_2_code (i c : Z) : is_code c -> Z.shiftr (4 * i + c) 2 = i.
Proof.
  unfold is_code. intros Hc. rewrite Z.shiftr_div_pow2 by lia. change (2 ^ 2) with 4.
  symmetry. apply Z.div_unique with (r := c); lia.
Qed.

Lemma level_append_code (i c : Z) :
  0 <= HtmPixelization.level i -> is_code c ->
  HtmPixelization.level (4 * i + c) = HtmPixelization.level i + 1.
Proof.
  intros Hl Hc. unfold is_code in Hc.
  pose proof (level_bounds i _ Hl eq_refl) as Hi.
  apply level_of_bounds; [lia|]. rewrite pow4_succ by lia. lia.
Qed.

(** X3: for an identifier of a level from 0 to 29 and a child code [c],
    the identifier the code builds for the child ([i << 2], then [+ c], in
    64 bits) is [4 * i + c] without wrap-around; its level is one more, and
    shifting it right by two bits gives the parent back.  Dropping the last
    two bits of an identifier of level 1 or more gives one of the level
    below, of which it is the child named by those two bits. *)
Theorem level_child_parent (i c : Z) :
  0 <= HtmPixelization.level i < 30 -> is_code c ->
  uint64.in_range (4 * i + c)
  /\ spec_child_index i c = 4 * i + c
  /\ HtmPixelization.level (spec_child_index i c) = HtmPixelization.level i + 1
  /\ uint64.shr (spec_child_index i c) 2 = i
  /\ (1 <= HtmPixelization.level i ->
      HtmPixelization.level (uint64.shr i 2) = HtmPixelization.level i - 1
      /\ is_code (Z.land i 3)
      /\ i = spec_child_index (uint64.shr i 2) (Z.land i 3)).
Proof.
  intros [Hl H30] Hc.
  pose proof (level_bounds i _ Hl eq_refl) as Hi.
  assert (H29 : 4 ^ HtmPixelization.level i <= 4 ^ 29)
    by (apply Z.pow_le_mono_r; lia).
  change (4 ^ 29) with 288230376151711744 in H29.
  assert (Hc' : 0 <= c < 4) by (unfold is_code in Hc; lia).
  assert (Ei : spec_child_index i c = 4 * i + c)
    by (apply spec_child_index_small; lia).
  split; [unfold uint64.in_range, uint64.width; lia|].
  split; [exact Ei|]. rewrite Ei.
  split; [now apply level_append_code|].
  split; [unfold uint64.shr; now apply shiftr_2_code|].
  intros H1. unfold uint64.shr.
  assert (Hp : 0 < 4 ^ (HtmPixelization.level i - 1)) by (apply pow4_pos; lia).
  assert (E : 4 ^ HtmPixelization.level i = 4 * 4 ^ (HtmPixelization.level i - 1)).
  { replace (HtmPixelization.level i) with (HtmPixelization.level i - 1 + 1) at 1 by lia.
    apply pow4_succ. lia. }
  assert (Ed : Z.shiftr i 2 = i / 4)
    by (rewrite Z.shiftr_div_pow2 by lia; reflexivity).
  assert (Em : Z.land i 3 = i mod 4)
    by (change 3 with (Z.ones 2); rewrite Z.land_ones by lia; reflexivity).
  rewrite Ed, Em.
  pose proof (Z.mod_pos_bound i 4 ltac:(lia)) as Hm.
  pose proof (Z.div_mod i 4 ltac:(lia)) as Hd.
  split; [|split; [unfold is_code; lia|]].
  - apply level_of_bounds; [lia|]. rewrite E in Hi. lia.
  - rewrite spec_child_index_small by lia. lia.
Qed.

Lemma level_child_parent_witness :
  uint64.in_range (4 * 35 + 2)
  /\ spec_child_index 35 2 = 4 * 35 + 2
  /\ HtmPixelization.level (spec_child_index 35 2) = HtmPixelization.level 35 + 1
  /\ uint64.shr (spec_child_index 35 2) 2 = 35
  /\ (1 <= HtmPixelization.level 35 ->
      HtmPixelization.level (uint64.shr 35 2) = HtmPixelization.level 35 - 1
      /\ is_code (Z.land 35 3)
      /\ 35 = spec_child_index (uint64.shr 35 2) (Z.land 35 3)).
Proof.
  apply (level_child_parent 35 2).
  - change (HtmPixelization.level 35) with 1. lia.
  - unfold is_code. lia.
Defined.

(** ** Canonical strings *)

Lemma digit_char_inj (a b : Z) :
  0 <= a < 4 -> 0 <= b < 4 ->
  HtmPixelization.digit_char a = HtmPixelization.digit_char b -> a = b.
Proof.
  intros Ha Hb.
  assert (Ca : a = 0 \/ a = 1 \/ a = 2 \/ a = 3) by lia.
  assert (Cb : b = 0 \/ b = 1 \/ b = 2 \/ b = 3) by lia.
  destruct Ca as [-> | [-> | [-> | ->]]]; destruct Cb as [-> | [-> | [-> | ->]]];
    vm_compute; intros E; (reflexivity || discriminate E).
Qed.

Lemma base4_digits_inj (n : nat) :
  forall i j, base4_digits n i = base4_digits n j ->
  i mod 4 ^ Z.of_nat n = j mod 4 ^ Z.of_nat n.
Proof.
  induction n as [|n IH]; intros i j E.
  - simpl. now rewrite !Z.mod_1_r.
  - cbn [base4_digits] in E. apply app_inj_tail in E. destruct E as [Ed Ec].
    apply digit_char_inj in Ec; try apply land_3_range.
    specialize (IH _ _ Ed).
    change 3 with (Z.ones 2) in Ec. rewrite !Z.land_ones in Ec by lia.
    change (2 ^ 2) with 4 in Ec.
    rewrite !Z.shiftr_div_pow2 in IH by lia. change (2 ^ 2) with 4 in IH.
    assert (Hp : 0 < 4 ^ Z.of_nat n) by (apply pow4_pos; lia).
    replace (4 ^ Z.of_nat (S n)) with (4 * 4 ^ Z.of_nat n)
      by (rewrite Nat2Z.inj_succ, <- Z.add_1_r, pow4_succ by lia; reflexivity).
    rewrite !Z.rem_mul_r by lia. rewrite IH, Ec. reflexivity.
Qed.

Lemma string_of_list_ascii_inj (a b : list ascii) :
  string_of_list_ascii a = string_of_list_ascii b -> a = b.
Proof.
  intros E. apply (f_equal list_ascii_of_string) in E.
  now rewrite !list_ascii_of_string_of_list_ascii in E.
Qed.

(** X4: [toString] gives different strings to different valid identifiers. *)
Theorem toString_injective (MAX_LEVEL i j : Z) :
  valid MAX_LEVEL i -> valid MAX_LEVEL j ->
  HtmPixelization.toString MAX_LEVEL i = HtmPixelization.toString MAX_LEVEL j ->
  i = j.
Proof.
  intros Hi Hj E. unfold HtmPixelization.toString in E.
  rewrite !toString_on_valid in E by (assumption || apply length_replicate).
  injection E as Eh Ed. apply string_of_list_ascii_inj in Ed.
  destruct Hi as [Hi0 Hi1], Hj as [Hj0 Hj1].
  assert (El : HtmPixelization.level i = HtmPixelization.level j).
  { apply (f_equal (@length ascii)) in Ed. rewrite !base4_digits_length in Ed. lia. }
  rewrite <- El in Ed. apply base4_digits_inj in Ed.
  rewrite <- !hemisphere_bit in Eh by lia. rewrite <- El in Eh.
  pose proof (level_bounds i _ Hi0 eq_refl) as Bi.
  pose proof (level_bounds j _ Hj0 eq_refl) as Bj. rewrite <- El in Bj.
  remember (HtmPixelization.level i) as l eqn:Dl. clear Dl El Hj1 Hi1 Hj0.
  rewrite Z2Nat.id in Ed by lia.
  rewrite !Z.shiftr_div_pow2, <- !pow4_pow2 in Eh by lia.
  assert (Hp : 0 < 4 ^ l) by (apply pow4_pos; lia).
  rewrite pow4_succ in * by lia.
  assert (Q : forall k, 8 * 4 ^ l <= k < 16 * 4 ^ l ->
               k / (4 * 4 ^ l) = 2 \/ k / (4 * 4 ^ l) = 3).
  { intros k Hk.
    assert (2 <= k / (4 * 4 ^ l)) by (apply Z.div_le_lower_bound; lia).
    assert (k / (4 * 4 ^ l) < 4) by (apply Z.div_lt_upper_bound; lia). lia. }
  pose proof (Z.div_mod i (4 * 4 ^ l) ltac:(lia)) as Di.
  pose proof (Z.div_mod j (4 * 4 ^ l) ltac:(lia)) as Dj.
  destruct (Q i Bi) as [Qi | Qi]; destruct (Q j Bj) as [Qj | Qj];
    rewrite Qi, Qj in *; try lia; vm_compute in Eh; discriminate Eh.
Qed.

Lemma toString_injective_witness : 35 = 35.
Proof.
  apply (toString_injective 24 35 35).
  - unfold valid. change (HtmPixelization.level 35) with 1. lia.
  - unfold valid. change (HtmPixelization.level 35) with 1. lia.
  - reflexivity.
Defined.

Lemma string_of_list_ascii_app (a b : list ascii) :
  string_of_list_ascii (a ++ b)
  = String.append (string_of_list_ascii a) (string_of_list_ascii b).
Proof. induction a as [|c a IH]; simpl; [reflexivity | now rewrite IH]. Qed.

Lemma root_field_append_code (i c : Z) :
  0 <= HtmPixelization.level i -> is_code c ->
  root_field (4 * i + c) = root_field i.
Proof.
  intros Hl Hc. unfold root_field, uint64.shr.
  rewrite level_append_code by assumption.
  replace ((HtmPixelization.level i + 1) * 2) with (2 + HtmPixelization.level i * 2) by lia.
  rewrite <- Z.shiftr_shiftr by lia. now rewrite shiftr_2_code.
Qed.

(** X5: the string of a child is the string of its parent followed by the
    digit of the child code. *)
Theorem toString_child (MAX_LEVEL i c : Z) :
  valid MAX_LEVEL i -> HtmPixelization.level i < MAX_LEVEL -> is_code c ->
  exists s,
    HtmPixelization.toString MAX_LEVEL i = ok s
    /\ HtmPixelization.toString MAX_LEVEL (4 * i + c)
       = ok (String.append s (String (HtmPixelization.digit_char c) EmptyString)).
Proof.
  intros Hv Hlt Hc. destruct Hv as [Hl0 Hl1].
  assert (Hvc : valid MAX_LEVEL (4 * i + c))
    by (unfold valid; rewrite level_append_code by assumption; lia).
  unfold HtmPixelization.toString.
  rewrite !toString_on_valid by (assumption || apply length_replicate || (split; lia)).
  eexists. split; [reflexivity|]. f_equal.
  unfold hemisphere_char. rewrite root_field_append_code by assumption.
  rewrite level_append_code by assumption.
  replace (Z.to_nat (HtmPixelization.level i + 1 + 1))
    with (S (Z.to_nat (HtmPixelization.level i + 1))) by lia.
  cbn [base4_digits string_of_list_ascii]. f_equal.
  rewrite string_of_list_ascii_app, shiftr_2_code, land_3_code by assumption.
  reflexivity.
Qed.

Lemma toString_child_witness :
  exists s,
    HtmPixelization.toString 24 35 = ok s
    /\ HtmPixelization.toString 24 (4 * 35 + 2)
       = ok (String.append s (String (HtmPixelization.digit_char 2) EmptyString)).
Proof.
  apply (toString_child 24 35 2).
  - unfold valid. change (HtmPixelization.level 35) with 1. lia.
  - change (HtmPixelization.level 35) with 1. lia.
  - unfold is_code. lia.
Defined.

(** X6: on a valid identifier the loop of [toString] stops with the write
    pointer at offset [MAX_LEVEL - level], inside the buffer; the buffer keeps
    its size, and nothing in front of the last [level + 1] bytes has been
    written. *)
Theorem toString_writes_in_bounds (MAX_LEVEL : Z) (s : list ascii) (i : Z) :
  valid MAX_LEVEL i ->
  length s = Z.to_nat (MAX_LEVEL + 2) ->
  exists (p' i' : Z) (s' : list ascii),
    while (Z.to_nat (HtmPixelization.level i + 1))
          (fun st : Z * Z * Z * list ascii => fst (fst (fst st)) >=? 0)
          HtmPixelization.toString_body
          (HtmPixelization.level i, MAX_LEVEL + 2 - 1, i, s)
    = (-1, p', i', s')
    /\ p' = MAX_LEVEL - HtmPixelization.level i
    /\ 0 <= p' < MAX_LEVEL + 2
    /\ (i' = 2 \/ i' = 3)
    /\ length s' = length s
    /\ take (Z.to_nat p' + 1) s' = take (Z.to_nat p' + 1) s.
Proof.
  intros [Hl0 Hl1] Hs.
  remember (Z.to_nat (HtmPixelization.level i + 1)) as n eqn:En.
  remember (Z.to_nat (MAX_LEVEL + 1)) as P eqn:EP.
  pose proof (toString_loop n P i s ltac:(lia) ltac:(lia)) as Hw.
  replace (Z.of_nat n - 1) with (HtmPixelization.level i) in Hw by lia.
  replace (MAX_LEVEL + 2 - 1) with (Z.of_nat P) by lia.
  rewrite Hw. do 3 eexists. split; [reflexivity|].
  assert (Hq : 8 <= Z.shiftr i (2 * HtmPixelization.level i) < 16)
    by (apply shiftr_valid; [lia | reflexivity]).
  split; [lia|]. split; [lia|]. split; [|split].
  - replace (2 * Z.of_nat n) with (2 * HtmPixelization.level i + 2) by lia.
    rewrite <- Z.shiftr_shiftr by lia.
    remember (Z.shiftr i (2 * HtmPixelization.level i)) as q eqn:Eq. clear Eq.
    rewrite Z.shiftr_div_pow2 by lia. change (2 ^ 2) with 4.
    assert (2 <= q / 4) by (apply Z.div_le_lower_bound; lia).
    assert (q / 4 < 4) by (apply Z.div_lt_upper_bound; lia). lia.
  - rewrite !length_app, length_take, length_drop, base4_digits_length. lia.
  - replace (Z.to_nat (Z.of_nat P - Z.of_nat n) + 1)%nat with (P + 1 - n)%nat by lia.
    rewrite take_app_length' by (rewrite length_take; lia). reflexivity.
Qed.

Lemma toString_writes_in_bounds_witness :
  exists (p' i' : Z) (s' : list ascii),
    while (Z.to_nat (HtmPixelization.level 35 + 1))
          (fun st : Z * Z * Z * list ascii => fst (fst (fst st)) >=? 0)
          HtmPixelization.toString_body
          (HtmPixelization.level 35, 24 + 2 - 1, 35, replicate 26 Ascii.zero)
    = (-1, p', i', s')
    /\ p' = 24 - HtmPixelization.level 35
    /\ 0 <= p' < 24 + 2
    /\ (i' = 2 \/ i' = 3)
    /\ length s' = length (replicate 26 Ascii.zero)
    /\ take (Z.to_nat p' + 1) s' = take (Z.to_nat p' + 1) (replicate 26 Ascii.zero).
Proof.
  apply (toString_writes_in_bounds 24 (replicate 26 Ascii.zero) 35).
  - unfold valid. change (HtmPixelization.level 35) with 1. lia.
  - reflexivity.
Defined.

(** ** [triangle] along the tree *)

Lemma path_value_snoc (i : Z) (cs : list Z) (c : Z) :
  path_value i (cs ++ [c]) = 4 * path_value i cs + c.
Proof. now rewrite path_value_app. Qed.

Lemma path_trixel_snoc {num : Numerics} {geo : Geometry num}
  (t : Trixel.t) (cs : list Z) (c : Z) :
  path_trixel t (cs ++ [c]) = spec_child c (path_trixel t cs).
Proof. unfold path_trixel. now rewrite fold_left_app. Qed.

(** Every identifier with a level is a root followed by child codes. *)
Lemma valid_is_path (n : nat) :
  forall i, 8 * 4 ^ Z.of_nat n <= i < 16 * 4 ^ Z.of_nat n ->
  exists r cs, 0 <= r <= 7 /\ Forall is_code cs /\ length cs = n
               /\ i = path_value (r + 8) cs.
Proof.
  induction n as [|n IH]; intros i Hi.
  - exists (i - 8), []. simpl in Hi. repeat split; try lia; [constructor|].
    simpl. lia.
  - assert (Hp : 0 < 4 ^ Z.of_nat n) by (apply pow4_pos; lia).
    replace (4 ^ Z.of_nat (S n)) with (4 * 4 ^ Z.of_nat n) in Hi
      by (rewrite Nat2Z.inj_succ, <- Z.add_1_r, pow4_succ by lia; reflexivity).
    pose proof (Z.mod_pos_bound i 4 ltac:(lia)) as Hm.
    pose proof (Z.div_mod i 4 ltac:(lia)) as Hd.
    destruct (IH (i / 4) ltac:(lia)) as (r & cs & Hr & Hcs & Hlen & Ei).
    exists r, (cs ++ [i mod 4]). split; [exact Hr|]. split; [|split].
    + apply Forall_app. split; [exact Hcs|]. constructor; [unfold is_code; lia | constructor].
    + rewrite length_app. simpl. lia.
    + rewrite path_value_snoc, <- Ei. lia.
Qed.

Lemma triangle_ok_valid {num : Numerics} {geo : Geometry num}
  (MAX_LEVEL i : Z) (t : Trixel.t) :
  HtmPixelization.triangle MAX_LEVEL i = ok t -> valid MAX_LEVEL i.
Proof.
  intros E. unfold valid.
  destruct (Z_lt_le_dec (HtmPixelization.level i) 0) as [Hneg|Hpos];
    [|destruct (Z_lt_le_dec MAX_LEVEL (HtmPixelization.level i)) as [Hbig|Hsmall]];
    [| |lia].
  - assert (T : throws (HtmPixelization.triangle MAX_LEVEL i) = true)
      by (apply triangle_throws; unfold valid; lia).
    rewrite E in T. discriminate T.
  - assert (T : throws (HtmPixelization.triangle MAX_LEVEL i) = true)
      by (apply triangle_throws; unfold valid; lia).
    rewrite E in T. discriminate T.
Qed.

Lemma triangle_append_code {num : Numerics} {geo : Geometry num}
  (MAX_LEVEL i c : Z) (t : Trixel.t) :
  HtmPixelization.triangle MAX_LEVEL i = ok t ->
  HtmPixelization.level i < MAX_LEVEL -> is_code c ->
  HtmPixelization.triangle MAX_LEVEL (4 * i + c) = ok (spec_child c t).
Proof.
  intros Et Hlt Hc. destruct (triangle_ok_valid _ _ _ Et) as [Hl0 _].
  pose proof (level_bounds i _ Hl0 eq_refl) as Hi.
  rewrite <- (Z2Nat.id (HtmPixelization.level i)) in Hi by lia.
  destruct (valid_is_path _ i Hi) as (r & cs & Hr & Hcs & Hlen & Ei).
  rewrite Ei in Et. rewrite triangle_path in Et by (assumption || lia).
  injection Et as <-.
  rewrite Ei, <- path_value_snoc, <- path_trixel_snoc.
  apply triangle_path; [exact Hr | |].
  - apply Forall_app. split; [exact Hcs | constructor; [exact Hc | constructor]].
  - rewrite length_app. simpl. lia.
Qed.

(** X7: when [triangle] returns [t] for an identifier below the deepest
    level, it returns for the identifier with the child code [c] appended
    the child [c] of [t] in the layout of [subdivide]. *)
Theorem triangle_child {num : Numerics} {geo : Geometry num}
  (MAX_LEVEL i c : Z) (t : Trixel.t) :
  HtmPixelization.triangle MAX_LEVEL i = ok t ->
  HtmPixelization.level i < MAX_LEVEL -> is_code c ->
  HtmPixelization.triangle MAX_LEVEL (4 * i + c) = ok (spec_child c t).
Proof. apply triangle_append_code. Qed.

Lemma triangle_child_witness :
  HtmPixelization.triangle (geo := exact.geometry) 24 (4 * 8 + 3)
  = ok (spec_child (geo := exact.geometry) 3 (exact_root 0)).
Proof.
  apply (triangle_child (geo := exact.geometry) 24 8 3 (exact_root 0)).
  - reflexivity.
  - change (HtmPixelization.level 8) with 0. lia.
  - unfold is_code. lia.
Defined.

(** ** The traversal from the eight roots *)

(** [operator()] visits the eight roots in order, whatever the array held. *)
Lemma roots_eq {num : Numerics} {geo : Geometry num} (trixel : Trixel.t) :
  Trace.roots trixel
  = map (fun r => (root_trixel r, r + 8, 0)) [0; 1; 2; 3; 4; 5; 6; 7].
Proof. destruct trixel as [a b c]. reflexivity. Qed.

Lemma triangle_root {num : Numerics} {geo : Geometry num} (MAX_LEVEL r : Z) :
  0 <= MAX_LEVEL -> 0 <= r <= 7 ->
  HtmPixelization.triangle MAX_LEVEL (r + 8) = ok (root_trixel r).
Proof.
  intros HM Hr. apply (triangle_path MAX_LEVEL r [] Hr); [constructor | simpl; lia].
Qed.

Lemma descendants_consistent {num : Numerics} {geo : Geometry num}
  (MAX_LEVEL : Z) (n : nat) :
  fits MAX_LEVEL ->
  forall (t : Trixel.t) (i l : Z),
  node_consistent MAX_LEVEL (t, i, l) -> l + Z.of_nat n <= MAX_LEVEL ->
  Forall (fun m : Trace.node => snd m = l + Z.of_nat n /\ node_consistent MAX_LEVEL m)
         (Trace.descendants n (t, i, l)).
Proof.
  intros Hf. induction n as [|n IH]; intros t i l [El Et] Hn.
  - cbn [Trace.descendants]. constructor; [|constructor].
    cbn [snd]. split; [lia|]. split; assumption.
  - cbn [Trace.index_of fst snd] in El, Et.
    destruct (triangle_ok_valid _ _ _ Et) as [Hl0 _].
    pose proof (level_bounds i _ Hl0 eq_refl) as Hi.
    pose proof (pow4_fits MAX_LEVEL (l + 1) Hf ltac:(lia)) as H64.
    rewrite pow4_succ in H64 by lia. rewrite El in Hi.
    assert (Ec : forall c, 0 <= c < 4 -> spec_child_index i c = 4 * i + c)
      by (intros c Hc; apply spec_child_index_small; lia).
    assert (Hchild : forall c, is_code c ->
              Forall (fun m : Trace.node =>
                        snd m = l + Z.of_nat (S n) /\ node_consistent MAX_LEVEL m)
                     (Trace.descendants n (spec_child c t, spec_child_index i c, l + 1))).
    { intros c Hc. unfold is_code in Hc.
      replace (l + Z.of_nat (S n)) with (l + 1 + Z.of_nat n) by lia.
      apply IH; [|lia]. rewrite Ec by lia.
      split; cbn [Trace.index_of fst snd].
      - rewrite level_append_code by (unfold is_code; lia). lia.
      - apply triangle_append_code; [exact Et | lia | unfold is_code; lia]. }
    cbn [Trace.descendants]. rewrite children_layout. cbn [map flat_map].
    rewrite app_nil_r. rewrite !Forall_app.
    repeat split; apply Hchild; unfold is_code; lia.
Qed.

(** The node a list of child codes leads to is among the descendants. *)
Lemma path_in_descendants {num : Numerics} {geo : Geometry num} (cs : list Z) :
  forall (t : Trixel.t) (i l : Z),
  Forall is_code cs ->
  In (path_trixel t cs, path_index i cs, l + Z.of_nat (length cs))
     (Trace.descendants (length cs) (t, i, l)).
Proof.
  induction cs as [|c cs IH]; intros t i l Hcs.
  - simpl. left. f_equal. lia.
  - inversion Hcs as [|? ? Hc Hcs']; subst. unfold is_code in Hc.
    cbn [length Trace.descendants]. apply in_flat_map.
    exists (spec_child c t, spec_child_index i c, l + 1). split.
    + rewrite children_layout.
      assert (C : c = 0 \/ c = 1 \/ c = 2 \/ c = 3) by lia.
      destruct C as [-> | [-> | [-> | ->]]]; simpl; tauto.
    + replace (l + Z.of_nat (S (length cs))) with (l + 1 + Z.of_nat (length cs)) by lia.
      apply (IH (spec_child c t) (spec_child_index i c) (l + 1) Hcs').
Qed.

(** X8: every node the traversal reaches [depth] levels below the roots
    ([depth <= MAX_LEVEL]) is at level [depth], carries an identifier of that
    level, and carries the trixel [triangle] returns for that identifier. *)
Theorem traverse_consistent {num : Numerics} {geo : Geometry num}
  (MAX_LEVEL : Z) (depth : nat) (trixel : Trixel.t) (n : Trace.node) :
  fits MAX_LEVEL -> Z.of_nat depth <= MAX_LEVEL ->
  In n (Trace.traverse depth trixel) ->
  snd n = Z.of_nat depth
  /\ HtmPixelization.level (Trace.index_of n) = Z.of_nat depth
  /\ HtmPixelization.triangle MAX_LEVEL (Trace.index_of n) = ok (fst (fst n)).
Proof.
  intros Hf Hd Hin. unfold Trace.traverse in Hin. rewrite roots_eq in Hin.
  apply in_flat_map in Hin. destruct Hin as (root & Hroot & Hin).
  assert (Hall : Forall (fun m : Trace.node =>
                           snd m = 0 + Z.of_nat depth /\ node_consistent MAX_LEVEL m)
                        (Trace.descendants depth root)).
  { apply in_map_iff in Hroot. destruct Hroot as (r & <- & Hr).
    assert (Hr7 : 0 <= r <= 7) by (simpl in Hr; lia).
    apply descendants_consistent; [exact Hf | | lia].
    split; cbn [Trace.index_of fst snd].
    - apply level_of_bounds; simpl; lia.
    - apply triangle_root; lia. }
  destruct (proj1 (List.Forall_forall _ _) Hall n Hin) as (Hl & El & Et).
  split; [lia|]. split; [rewrite El; lia | exact Et].
Qed.

Lemma traverse_consistent_witness :
  snd (spec_child (geo := exact.geometry) 1
         (spec_child (geo := exact.geometry) 2 (exact_root 7)), 249, 2)
  = Z.of_nat 2
  /\ HtmPixelization.level
       (Trace.index_of (num := exact.numerics)
          (spec_child (geo := exact.geometry) 1
             (spec_child (geo := exact.geometry) 2 (exact_root 7)), 249, 2))
     = Z.of_nat 2
  /\ HtmPixelization.triangle (geo := exact.geometry) 24
       (Trace.index_of (num := exact.numerics)
          (spec_child (geo := exact.geometry) 1
             (spec_child (geo := exact.geometry) 2 (exact_root 7)), 249, 2))
     = ok (fst (fst (spec_child (geo := exact.geometry) 1
                       (spec_child (geo := exact.geometry) 2 (exact_root 7)), 249, 2))).
Proof.
  apply (traverse_consistent (geo := exact.geometry) 24 2 (exact_root 0)
           (spec_child (geo := exact.geometry) 1
              (spec_child (geo := exact.geometry) 2 (exact_root 7)), 249, 2)).
  - unfold fits, uint64.width. lia.
  - simpl. lia.
  - unfold Trace.traverse. apply in_flat_map.
    exists (exact_root 7, 15, 0). split.
    + rewrite (roots_eq (geo := exact.geometry)). simpl. tauto.
    + apply (path_in_descendants (geo := exact.geometry) [2; 1] (exact_root 7) 15 0).
      repeat constructor; unfold is_code; lia.
Defined.

Lemma descendants_seqZ {num : Numerics} {geo : Geometry num} (n : nat) :
  forall (t : Trixel.t) (i l : Z),
  0 <= i -> (i + 1) * 4 ^ Z.of_nat n <= 2 ^ 64 ->
  map Trace.index_of (Trace.descendants n (t, i, l))
  = seqZ (i * 4 ^ Z.of_nat n) (4 ^ Z.of_nat n).
Proof.
  induction n as [|n IH]; intros t i l Hi Hfit.
  - simpl. rewrite Z.mul_1_r. reflexivity.
  - assert (Hp : 0 < 4 ^ Z.of_nat n) by (apply pow4_pos; lia).
    assert (Es : 4 ^ Z.of_nat (S n) = 4 * 4 ^ Z.of_nat n).
    { rewrite Nat2Z.inj_succ, <- Z.add_1_r. apply pow4_succ. lia. }
    rewrite Es in *.
    assert (Ec : forall c, 0 <= c < 4 -> spec_child_index i c = 4 * i + c)
      by (intros c Hc; apply spec_child_index_small; nia).
    cbn [Trace.descendants]. rewrite children_layout. cbn [map flat_map].
    rewrite app_nil_r, !map_app.
    rewrite !IH by (rewrite ?Ec by lia; nia).
    rewrite !Ec by lia.
    remember (4 ^ Z.of_nat n) as w eqn:Ew. clear Ew Es.
    replace (4 * w) with (w + (w + (w + w))) by lia.
    rewrite !seqZ_app by lia.
    repeat (f_equal; try lia).
Qed.

Lemma seqZ_8 (m w : Z) :
  0 <= w ->
  seqZ m (8 * w)
  = seqZ m w ++ seqZ (m + w) w ++ seqZ (m + 2 * w) w ++ seqZ (m + 3 * w) w
    ++ seqZ (m + 4 * w) w ++ seqZ (m + 5 * w) w ++ seqZ (m + 6 * w) w
    ++ seqZ (m + 7 * w) w.
Proof.
  intros Hw.
  replace (8 * w) with (w + (w + (w + (w + (w + (w + (w + w))))))) by lia.
  rewrite !seqZ_app by lia. repeat (f_equal; try lia).
Qed.

(** X9: the identifiers the traversal reaches [depth] levels below the
    roots are the identifiers of level [depth], each once and in increasing
    order. *)
Theorem traverse_indices {num : Numerics} {geo : Geometry num}
  (MAX_LEVEL : Z) (depth : nat) (trixel : Trixel.t) :
  fits MAX_LEVEL -> Z.of_nat depth <= MAX_LEVEL ->
  map Trace.index_of (Trace.traverse depth trixel)
  = seqZ (8 * 4 ^ Z.of_nat depth) (8 * 4 ^ Z.of_nat depth).
Proof.
  intros Hf Hd. unfold Trace.traverse. rewrite roots_eq.
  pose proof (pow4_fits MAX_LEVEL (Z.of_nat depth) Hf ltac:(lia)) as H64.
  assert (Hp : 0 < 4 ^ Z.of_nat depth) by (apply pow4_pos; lia).
  cbn [map flat_map]. rewrite app_nil_r, !map_app.
  rewrite !descendants_seqZ by lia.
  rewrite seqZ_8 by lia. repeat (f_equal; try lia).
Qed.

Lemma traverse_indices_witness :
  map (Trace.index_of (num := exact.numerics))
      (Trace.traverse (geo := exact.geometry) 1 (exact_root 0))
  = seqZ (8 * 4 ^ Z.of_nat 1) (8 * 4 ^ Z.of_nat 1).
Proof.
  apply (traverse_indices (geo := exact.geometry) 24 1 (exact_root 0)).
  - unfold fits, uint64.width. lia.
  - simpl. lia.
Defined.

(** ** [index] across levels and in the traversal *)

Lemma index_body_level {num : Numerics} {geo : Geometry num}
  (v : UnitVector3d) (k i : Z) (t : Trixel.t) :
  fst (fst (HtmPixelization.index_body v (k, i, t))) = k + 1.
Proof. destruct (index_body_layout v k i t) as (c & _ & ->). reflexivity. Qed.

(** One more level is one more iteration after the same descent. *)
Lemma index_loop_snoc {num : Numerics} {geo : Geometry num}
  (v : UnitVector3d) (L : Z) (n : nat) :
  forall (k i : Z) (t : Trixel.t),
  k + Z.of_nat n = L ->
  while (S n) (fun st : Z * Z * Trixel.t => fst (fst st) <? L + 1)
        (HtmPixelization.index_body v) (k, i, t)
  = HtmPixelization.index_body v
      (while n (fun st : Z * Z * Trixel.t => fst (fst st) <? L)
             (HtmPixelization.index_body v) (k, i, t)).
Proof.
  induction n as [|n IH]; intros k i t Hk.
  - rewrite while_step by (cbn beta; cbn [fst]; apply Z.ltb_lt; lia). reflexivity.
  - rewrite while_step by (cbn beta; cbn [fst]; apply Z.ltb_lt; lia).
    rewrite (while_step (fun st : Z * Z * Trixel.t => fst (fst st) <? L))
      by (cbn beta; cbn [fst]; apply Z.ltb_lt; lia).
    pose proof (index_body_level v k i t) as Hl.
    destruct (HtmPixelization.index_body v (k, i, t)) as [[k' i'] t'].
    cbn [fst] in Hl. apply IH. lia.
Qed.

Lemma index_bounds {num : Numerics} {geo : Geometry num}
  (MAX_LEVEL L : Z) (self : HtmPixelization.t) (v : UnitVector3d) :
  fits MAX_LEVEL -> HtmPixelization.new MAX_LEVEL L = ok self ->
  8 * 4 ^ L <= HtmPixelization.index self v < 16 * 4 ^ L.
Proof.
  intros Hf Hnew. destruct (new_ok _ _ _ Hnew) as [HL _].
  destruct (index_path (fun _ => True) MAX_LEVEL L self v Hf Hnew
              ltac:(auto) I) as (cs & Hlen & Hcs & Ei & _ & _).
  pose proof (index_root_range v) as Hr.
  pose proof (path_value_bounds cs (HtmPixelization.index_root v + 8) Hcs) as Hb.
  rewrite Hlen in Hb. rewrite <- Ei in Hb.
  pose proof (pow4_pos L ltac:(lia)) as Hp. nia.
Qed.

(** X10: the identifier [index] returns at level [L + 1] is the identifier
    it returns at level [L] with one child code appended, and the trixel its
    descent ends in is that child of the trixel the shallower descent ends
    in. *)
Theorem index_refines {num : Numerics} {geo : Geometry num}
  (MAX_LEVEL L : Z) (self self' : HtmPixelization.t) (v : UnitVector3d) :
  fits MAX_LEVEL ->
  HtmPixelization.new MAX_LEVEL L = ok self ->
  HtmPixelization.new MAX_LEVEL (L + 1) = ok self' ->
  exists c, is_code c
    /\ HtmPixelization.index self' v = 4 * HtmPixelization.index self v + c
    /\ Z.shiftr (HtmPixelization.index self' v) 2 = HtmPixelization.index self v
    /\ snd (HtmPixelization.index_descent self' v)
       = spec_child c (snd (HtmPixelization.index_descent self v)).
Proof.
  intros Hf Hnew Hnew'.
  pose proof (index_bounds MAX_LEVEL L self v Hf Hnew) as Hb.
  destruct (new_ok _ _ _ Hnew) as [HL EL].
  destruct (new_ok _ _ _ Hnew') as [HL' EL'].
  pose proof (pow4_fits MAX_LEVEL (L + 1) Hf HL') as H64.
  rewrite pow4_succ in H64 by lia.
  unfold HtmPixelization.index in *.
  unfold HtmPixelization.index_descent in *. rewrite EL, EL' in *.
  replace (Z.to_nat (L + 1)) with (S (Z.to_nat L)) by lia.
  rewrite index_loop_snoc by lia.
  destruct (while (Z.to_nat L) _ _ _) as [[k i] t].
  cbn [fst snd] in Hb.
  destruct (index_body_layout v k i t) as (c & Hc & ->). cbn [fst snd].
  exists c. split; [exact Hc|].
  rewrite spec_child_index_small by lia.
  split; [reflexivity|]. split; [now apply shiftr_2_code | reflexivity].
Qed.

Lemma index_refines_witness :
  exists c, is_code c
    /\ HtmPixelization.index (geo := exact.geometry) (HtmPixelization.Build (1 + 1))
         (Vector3d.make 1%R 0%R 0%R)
       = 4 * HtmPixelization.index (geo := exact.geometry) (HtmPixelization.Build 1)
               (Vector3d.make 1%R 0%R 0%R) + c
    /\ Z.shiftr (HtmPixelization.index (geo := exact.geometry)
                   (HtmPixelization.Build (1 + 1)) (Vector3d.make 1%R 0%R 0%R)) 2
       = HtmPixelization.index (geo := exact.geometry) (HtmPixelization.Build 1)
           (Vector3d.make 1%R 0%R 0%R)
    /\ snd (HtmPixelization.index_descent (geo := exact.geometry)
              (HtmPixelization.Build (1 + 1)) (Vector3d.make 1%R 0%R 0%R))
       = spec_child (geo := exact.geometry) c
           (snd (HtmPixelization.index_descent (geo := exact.geometry)
                   (HtmPixelization.Build 1) (Vector3d.make 1%R 0%R 0%R))).
Proof.
  apply (index_refines (geo := exact.geometry) 24 1 (HtmPixelization.Build 1)
           (HtmPixelization.Build (1 + 1)) (Vector3d.make 1%R 0%R 0%R)).
  - unfold fits, uint64.width. lia.
  - reflexivity.
  - reflexivity.
Defined.

(** X11: what [index] returns is a node of the traversal: the identifier,
    with the trixel the descent ends in, is among the nodes reached [_level]
    levels below the roots. *)
Theorem index_in_traversal {num : Numerics} {geo : Geometry num}
  (MAX_LEVEL L : Z) (self : HtmPixelization.t) (v : UnitVector3d)
  (trixel : Trixel.t) :
  HtmPixelization.new MAX_LEVEL L = ok self ->
  In (snd (HtmPixelization.index_descent self v), HtmPixelization.index self v, L)
     (Trace.traverse (Z.to_nat L) trixel).
Proof.
  intros Hnew. destruct (new_ok _ _ _ Hnew) as [HL EL].
  pose proof (index_root_range v) as Hr.
  unfold HtmPixelization.index, HtmPixelization.index_descent. rewrite EL.
  destruct (index_loop_path (fun _ => True) v L ltac:(auto) (Z.to_nat L) 0
              (uint64.add (HtmPixelization.index_root v) 8)
              (root_trixel (HtmPixelization.index_root v)) ltac:(lia) I)
    as (cs & Hlen & Hcs & Ew & _).
  rewrite Ew. cbn [fst snd].
  assert (Ea : uint64.add (HtmPixelization.index_root v) 8
               = HtmPixelization.index_root v + 8).
  { unfold uint64.add, uint64.wrap, uint64.width. apply Z.mod_small. lia. }
  rewrite Ea. unfold Trace.traverse. apply in_flat_map.
  exists (root_trixel (HtmPixelization.index_root v), HtmPixelization.index_root v + 8, 0).
  split.
  - rewrite roots_eq.
    remember (HtmPixelization.index_root v) as r eqn:Er. clear Er.
    assert (C : r = 0 \/ r = 1 \/ r = 2 \/ r = 3 \/ r = 4 \/ r = 5 \/ r = 6 \/ r = 7) by lia.
    destruct C as [-> | [-> | [-> | [-> | [-> | [-> | [-> | ->]]]]]]]; simpl; tauto.
  - rewrite <- Hlen.
    replace L with (0 + Z.of_nat (length cs)) at 1 by lia.
    now apply path_in_descendants.
Qed.

Lemma index_in_traversal_witness :
  In (snd (HtmPixelization.index_descent (geo := exact.geometry)
             (HtmPixelization.Build 2) (Vector3d.make 1%R 0%R 0%R)),
      HtmPixelization.index (geo := exact.geometry) (HtmPixelization.Build 2)
        (Vector3d.make 1%R 0%R 0%R), 2)
     (Trace.traverse (geo := exact.geometry) (Z.to_nat 2) (exact_root 0)).
Proof.
  apply (index_in_traversal (geo := exact.geometry) 24 2 (HtmPixelization.Build 2)
           (Vector3d.make 1%R 0%R 0%R) (exact_root 0)).
  reflexivity.
Defined.


(** ** The root table and the root selection agree on doubles *)

Lemma float_not_gt0_le (a : float) :
  PrimFloat.eqb a a = true -> PrimFloat.ltb 0 a = false -> PrimFloat.leb a 0 = true.
Proof. intros N H. float_cases a. Qed.

Lemma float_not_lt0_ge (a : float) :
  PrimFloat.eqb a a = true -> PrimFloat.ltb a 0 = false -> PrimFloat.leb 0 a = true.
Proof. intros N H. float_cases a. Qed.

Lemma float_lt0_le (a : float) :
  PrimFloat.ltb a 0 = true -> PrimFloat.leb a 0 = true.
Proof. intros H. float_cases a. Qed.

Lemma float_eq0_le (a : float) :
  PrimFloat.eqb a 0 = true -> PrimFloat.leb a 0 = true.
Proof. intros H. float_cases a. Qed.

(** X13: on doubles that are not NaN, the root [index] selects has its
    vertices in the closed octant of the point: where a coordinate of a
    vertex of [HTM_ROOT_VERTEX] is positive the point's coordinate is not
    negative, and where it is negative the point's is not positive. *)
Theorem root_octant (x y z : float) (k c : Z) :
  PrimFloat.eqb x x = true -> PrimFloat.eqb y y = true -> PrimFloat.eqb z z = true ->
  0 <= k <= 2 -> 0 <= c <= 2 ->
  (PrimFloat.ltb 0 (root_coordinate (num := ieee.numerics) (ieee.index_root x y z) k c)
   = true ->
   PrimFloat.leb 0 (coordinate c (ieee.point x y z)) = true)
  /\ (PrimFloat.ltb (root_coordinate (num := ieee.numerics) (ieee.index_root x y z) k c) 0
      = true ->
      PrimFloat.leb (coordinate c (ieee.point x y z)) 0 = true).
Proof.
  intros Nx Ny Nz Hk Hc.
  assert (Ck : k = 0 \/ k = 1 \/ k = 2) by lia.
  assert (Cc : c = 0 \/ c = 1 \/ c = 2) by lia.
  rewrite ieee_index_root_unfold.
  destruct (PrimFloat.ltb z 0) eqn:Z0;
    destruct (PrimFloat.ltb 0 y) eqn:Y0;
    destruct (PrimFloat.eqb y 0) eqn:Y1;
    destruct (PrimFloat.ltb 0 x) eqn:X0;
    destruct (PrimFloat.leb 0 x) eqn:X1;
    destruct (PrimFloat.ltb x 0) eqn:X2;
    destruct Ck as [-> | [-> | ->]]; destruct Cc as [-> | [-> | ->]];
    (split; intros H; vm_compute in H; try discriminate H;
     unfold coordinate, ieee.point; cbn [Z.eqb Vector3d.x Vector3d.y Vector3d.z];
     first [ assumption
           | now apply float_gt0_ge
           | now apply float_lt0_le
           | now apply float_eq0_ge
           | now apply float_eq0_le
           | now apply float_not_gt0_le
           | now apply float_not_lt0_ge
           | (exfalso; rewrite (float_gt0_ge x X0) in X1; discriminate X1)
           | (exfalso; rewrite (float_lt0_not_ge x X2) in X1; discriminate X1)
           | (exfalso; rewrite (float_lt0_not_gt x X2) in X0; discriminate X0)
           | (exfalso; rewrite (float_eq0_not_gt y Y1) in Y0; discriminate Y0) ]).
Qed.

Lemma root_octant_witness :
  (PrimFloat.ltb 0 (root_coordinate (num := ieee.numerics) (ieee.index_root (-1) 0 0) 0 1)
   = true ->
   PrimFloat.leb 0 (coordinate 1 (ieee.point (-1) 0 0)) = true)
  /\ (PrimFloat.ltb (root_coordinate (num := ieee.numerics) (ieee.index_root (-1) 0 0) 0 1) 0
      = true ->
      PrimFloat.leb (coordinate 1 (ieee.point (-1) 0 0)) 0 = true).
Proof. apply (root_octant (-1) 0 0 0 1); (reflexivity || lia). Defined.

(** ** [index] composed with [triangle] and [toString] *)

(** X15: in any arithmetic, [triangle] applied to what [index] returns
    gives back, without an exception, the very trixel the descent of [index]
    ended in. *)
Theorem triangle_inverts_index {num : Numerics} {geo : Geometry num}
  (MAX_LEVEL L : Z) (self : HtmPixelization.t) (v : UnitVector3d) :
  fits MAX_LEVEL ->
  HtmPixelization.new MAX_LEVEL L = ok self ->
  HtmPixelization.triangle MAX_LEVEL (HtmPixelization.index self v)
  = ok (snd (HtmPixelization.index_descent self v)).
Proof. apply triangle_index. Qed.

Lemma triangle_inverts_index_witness :
  HtmPixelization.triangle (geo := exact.geometry) 24
    (HtmPixelization.index (geo := exact.geometry) (HtmPixelization.Build 2)
       (Vector3d.make 0%R 1%R 0%R))
  = ok (snd (HtmPixelization.index_descent (geo := exact.geometry)
               (HtmPixelization.Build 2) (Vector3d.make 0%R 1%R 0%R))).
Proof.
  apply (triangle_inverts_index (geo := exact.geometry) 24 2 (HtmPixelization.Build 2)
           (Vector3d.make 0%R 1%R 0%R)).
  - unfold fits, uint64.width. lia.
  - reflexivity.
Defined.

Lemma index_root_hemisphere {num : Numerics} (v : UnitVector3d) :
  (4 <=? HtmPixelization.index_root v) = negb (d_lt (Vector3d.z v) d_zero).
Proof.
  unfold HtmPixelization.index_root.
  repeat match goal with |- context [if ?b then _ else _] => destruct b end;
    reflexivity.
Qed.

Lemma index_root_field {num : Numerics} {geo : Geometry num}
  (MAX_LEVEL L : Z) (self : HtmPixelization.t) (v : UnitVector3d) :
  fits MAX_LEVEL -> HtmPixelization.new MAX_LEVEL L = ok self ->
  HtmPixelization.level (HtmPixelization.index self v) = L
  /\ root_field (HtmPixelization.index self v) = HtmPixelization.index_root v.
Proof.
  intros Hf Hnew. destruct (new_ok _ _ _ Hnew) as [HL _].
  pose proof (index_bounds MAX_LEVEL L self v Hf Hnew) as Hb.
  assert (El : HtmPixelization.level (HtmPixelization.index self v) = L)
    by (apply level_of_bounds; lia).
  split; [exact El|]. unfold root_field, uint64.shr. rewrite El.
  replace (L * 2) with (2 * L) by lia.
  rewrite (index_root_prefix MAX_LEVEL L self v Hf Hnew).
  pose proof (index_root_range v) as Hr.
  remember (HtmPixelization.index_root v) as r eqn:Er. clear Er.
  assert (C : r = 0 \/ r = 1 \/ r = 2 \/ r = 3 \/ r = 4 \/ r = 5 \/ r = 6 \/ r = 7) by lia.
  destruct C as [-> | [-> | [-> | [-> | [-> | [-> | [-> | ->]]]]]]]; reflexivity.
Qed.

(** X16: [toString] never throws on what [index] returns; the string has
    [_level + 2] characters, and it starts with ['S'] exactly when the third
    coordinate of the point compares below zero. *)
Theorem toString_of_index {num : Numerics} {geo : Geometry num}
  (MAX_LEVEL L : Z) (self : HtmPixelization.t) (v : UnitVector3d) :
  fits MAX_LEVEL ->
  HtmPixelization.new MAX_LEVEL L = ok self ->
  exists rest,
    HtmPixelization.toString MAX_LEVEL (HtmPixelization.index self v)
    = ok (String (if d_lt (Vector3d.z v) d_zero then "S"%char else "N"%char) rest)
    /\ Z.of_nat (String.length rest) = L + 1.
Proof.
  intros Hf Hnew. destruct (new_ok _ _ _ Hnew) as [HL _].
  destruct (index_root_field MAX_LEVEL L self v Hf Hnew) as [El Er].
  unfold HtmPixelization.toString.
  rewrite toString_on_valid by (apply length_replicate || (unfold valid; lia)).
  eexists. split.
  - unfold hemisphere_char. rewrite Er, index_root_hemisphere.
    cbn [string_of_list_ascii].
    destruct (d_lt (Vector3d.z v) d_zero); reflexivity.
  - rewrite string_of_list_ascii_length, base4_digits_length. lia.
Qed.

Lemma toString_of_index_witness :
  exists rest,
    HtmPixelization.toString 24
      (HtmPixelization.index (geo := exact.geometry) (HtmPixelization.Build 2)
         (Vector3d.make 0%R 0%R (-1)%R))
    = ok (String (if d_lt (Numerics := exact.numerics)
                       (Vector3d.z (Vector3d.make 0%R 0%R (-1)%R)) d_zero
                  then "S"%char else "N"%char) rest)
    /\ Z.of_nat (String.length rest) = 2 + 1.
Proof.
  apply (toString_of_index (geo := exact.geometry) 24 2 (HtmPixelization.Build 2)
           (Vector3d.make 0%R 0%R (-1)%R)).
  - unfold fits, uint64.width. lia.
  - reflexivity.
Defined.

(** ** The visits of any finder *)

(** X17: for any finder state and any [visit], [subdivide] makes four
    calls of [visit], on the children 0, 1, 2 and 3 of the layout in this
    order, each with the identifier of the node followed by the child's code
    and with the level plus one; [operator()] makes eight calls of [visit],
    on the root triangles 0 to 7 in this order, root [r] with the identifier
    [r + 8] and the level 0, whatever its local array held before. *)
Theorem visits_in_order {num : Numerics} {geo : Geometry num}
  (Finder : Type) (visit : Trixel.t -> Z -> Z -> Finder -> Finder)
  (trixel : Trixel.t) (index level : Z) (self : Finder) :
  HtmPixelFinder.subdivide Finder visit trixel index level self
  = visit (spec_child 3 trixel) (spec_child_index index 3) (level + 1)
      (visit (spec_child 2 trixel) (spec_child_index index 2) (level + 1)
         (visit (spec_child 1 trixel) (spec_child_index index 1) (level + 1)
            (visit (spec_child 0 trixel) (spec_child_index index 0) (level + 1) self)))
  /\ HtmPixelFinder.call Finder visit trixel self
     = visit (root_trixel 7) 15 0
         (visit (root_trixel 6) 14 0
            (visit (root_trixel 5) 13 0
               (visit (root_trixel 4) 12 0
                  (visit (root_trixel 3) 11 0
                     (visit (root_trixel 2) 10 0
                        (visit (root_trixel 1) 9 0
                           (visit (root_trixel 0) 8 0 self))))))).
Proof.
  split.
  - unfold HtmPixelFinder.subdivide.
    rewrite mul_4_shl_2, (spec_child_index_0 index), !spec_child_index_succ.
    destruct trixel as [a b c]. reflexivity.
  - destruct trixel as [a b c]. reflexivity.
Qed.
